(** * Aventura Mizzou: the turn/phase progression controller

    A shallow embedding of the game controller ([GameInterface.tsx]) and
    of the content service client it drives ([services/gemini]), with the
    properties of the turn state machine proved over it.

    Conventions of the embedding

    - A JavaScript string is the list of its UTF-16 code units ([jsstring]);
      [js] injects an ASCII literal.
    - A JavaScript [number] that the controller only counts with
      ([currentTurn], [maxTurns]) is an integer of [Z].
    - React state is the record [App]; a handler is an action of the monad
      [Act], which threads the state and an observation trace: every
      request that crosses the service boundary is logged ([Request]), and
      every [await] logs the state the component shows while it is
      suspended ([Suspend]).
    - The remote service, [uuidv4()] and [Date.now()] are the environment:
      their results are arguments of the handlers.
    - [JSON.parse] is a platform function: a parameter of the development,
      at the type the source declares for its result. *)

From Stdlib Require Import ZArith NArith List String Ascii Bool Lia.
From Stdlib Require Import DecimalString.
From Stdlib Require QArith.
Import ListNotations.

Local Open Scope Z_scope.

(* ================================================================== *)
(** * JavaScript strings *)
(* ================================================================== *)

Module JsString.

(** UTF-16 code units. *)
Definition jsstring := list N.

Definition js (s : string) : jsstring :=
  map N_of_ascii (list_ascii_of_string s).

(** [a === b] on strings. *)
Fixpoint strict_eq (a b : jsstring) : bool :=
  match a, b with
  | [], [] => true
  | x :: a', y :: b' => N.eqb x y && strict_eq a' b'
  | _, _ => false
  end.

(** Template-literal rendering of an integer-valued number. *)
Definition number_to_string (z : Z) : jsstring :=
  js (NilEmpty.string_of_int (Z.to_int z)).

(** [WhiteSpace] and [LineTerminator] code units, the set that
    [String.prototype.trim] removes. *)
Definition js_whitespace_units : list N :=
  [0x09; 0x0A; 0x0B; 0x0C; 0x0D; 0x20; 0xA0; 0x1680;
   0x2028; 0x2029; 0x202F; 0x205F; 0x3000; 0xFEFF]%N.

Definition is_js_whitespace (c : N) : bool :=
  existsb (N.eqb c) js_whitespace_units
  || ((0x2000 <=? c)%N && (c <=? 0x200A)%N).

Fixpoint trim_start (s : jsstring) : jsstring :=
  match s with
  | [] => []
  | c :: t => if is_js_whitespace c then trim_start t else s
  end.

Definition trim_end (s : jsstring) : jsstring :=
  rev (trim_start (rev s)).

(** [s.trim()] *)
Definition trim (s : jsstring) : jsstring :=
  trim_end (trim_start s).

(** A string is falsy exactly when it is empty. *)
Definition truthy (s : jsstring) : bool :=
  match s with [] => false | _ :: _ => true end.

(** If [s] starts with [pre], what follows it. *)
Fixpoint drop_prefix (pre s : jsstring) : option jsstring :=
  match pre with
  | [] => Some s
  | p :: pre' =>
      match s with
      | [] => None
      | c :: s' => if N.eqb p c then drop_prefix pre' s' else None
      end
  end.

Definition backtick : N := 0x60%N.
Definition newline : N := 0x0A%N.

Definition fence : jsstring := [backtick; backtick; backtick].
Definition fence_json : jsstring := fence ++ js "json".
Definition newline_fence : jsstring := newline :: fence.

(** Length of the match of [/```json\n?|\n?```/] anchored at the start of
    [s], [0] when there is none.  The alternatives are tried in order and
    [\n?] is greedy; in the second alternative a leading newline that is
    not followed by a fence cannot be given back to any effect, since the
    fence would then have to start at that same newline. *)
Definition fence_match_length (s : jsstring) : nat :=
  match drop_prefix fence_json s with
  | Some rest =>
      match rest with
      | c :: _ => if N.eqb c newline then 8%nat else 7%nat
      | [] => 7%nat
      end
  | None =>
      match drop_prefix newline_fence s with
      | Some _ => 4%nat
      | None =>
          match drop_prefix fence s with
          | Some _ => 3%nat
          | None => 0%nat
          end
      end
  end.

(** The scan of a global replace by the empty string: [skip] code units of
    the current match remain to be deleted; with none pending, a match is
    looked for at the current index, and a code unit where none starts is
    kept. *)
Fixpoint replace_fences_from (skip : nat) (s : jsstring) : jsstring :=
  match s with
  | [] => []
  | c :: t =>
      match skip with
      | S k => replace_fences_from k t
      | O =>
          match fence_match_length s with
          | S k => replace_fences_from k t
          | O => c :: replace_fences_from 0 t
          end
      end
  end.

(** [text.replace(/```json\n?|\n?```/g, "")] *)
Definition replace_fences (text : jsstring) : jsstring :=
  replace_fences_from 0 text.

End JsString.
Import JsString.


(* ================================================================== *)
(** * The data model ([types.ts]) *)
(* ================================================================== *)

Inductive Sender := USER | MODEL | SYSTEM.

Record ReviewSnippet := { content : jsstring }.

Record PlaceAnswerSource := { reviewSnippets : option (list ReviewSnippet) }.

Record MapsChunk := {
  maps_uri : jsstring;
  maps_title : jsstring;
  placeAnswerSources : option (list PlaceAnswerSource)
}.

Record WebChunk := { web_uri : jsstring; web_title : jsstring }.

Record GroundingChunk := { maps : option MapsChunk; web : option WebChunk }.

(** The structured data returned by the service for a game turn. *)
Record GameTurnData := {
  locationName : jsstring;
  locationType : jsstring;
  englishQuestion : jsstring;
  spanishConcept : jsstring;
  question : jsstring;
  options : list jsstring;
  correctAnswer : jsstring;
  explanation : jsstring;
  isGameOver : option bool
}.

Inductive TurnStep := concept | grammar.

Record ChatMessage := {
  msg_id : jsstring;
  role : Sender;
  text : option jsstring;
  structuredContent : option GameTurnData;
  groundingChunks : option (list GroundingChunk);
  timestamp : Z;
  isCorrect : option bool;
  step : option TurnStep
}.

Inductive Status :=
  status_intro | status_playing | status_loading | status_finished | status_error.

Record LatLng := { lat : QArith_base.Q; lng : QArith_base.Q }.

Record GameState := {
  status : Status;
  location : option LatLng;
  currentTurn : Z;
  maxTurns : Z;
  activeChallenge : option GameTurnData;
  turnStep : TurnStep
}.

(** Object spreads [{ ...prev, field: value }]. *)
Definition set_status (v : Status) (prev : GameState) : GameState :=
  {| status := v; location := location prev; currentTurn := currentTurn prev;
     maxTurns := maxTurns prev; activeChallenge := activeChallenge prev;
     turnStep := turnStep prev |}.

Definition set_currentTurn (v : Z) (prev : GameState) : GameState :=
  {| status := status prev; location := location prev; currentTurn := v;
     maxTurns := maxTurns prev; activeChallenge := activeChallenge prev;
     turnStep := turnStep prev |}.

Definition set_activeChallenge (v : option GameTurnData) (prev : GameState)
  : GameState :=
  {| status := status prev; location := location prev;
     currentTurn := currentTurn prev; maxTurns := maxTurns prev;
     activeChallenge := v; turnStep := turnStep prev |}.

Definition set_turnStep (v : TurnStep) (prev : GameState) : GameState :=
  {| status := status prev; location := location prev;
     currentTurn := currentTurn prev; maxTurns := maxTurns prev;
     activeChallenge := activeChallenge prev; turnStep := v |}.

Definition set_spanishConcept (v : jsstring) (c : GameTurnData) : GameTurnData :=
  {| locationName := locationName c; locationType := locationType c;
     englishQuestion := englishQuestion c; spanishConcept := v;
     question := question c; options := options c;
     correctAnswer := correctAnswer c; explanation := explanation c;
     isGameOver := isGameOver c |}.

(* ================================================================== *)
(** * Component state, environment and the handler monad *)
(* ================================================================== *)

Inductive FeedbackType := fb_success | fb_error.

Record Feedback := { fb_text : jsstring; fb_type : FeedbackType }.

(** The handle that [ai.chats.create] returns. *)
Inductive Chat := chat_handle.

(** The [useState] cells of [GameInterface] that the controller logic
    uses, and the module-level [chatSession] of the service client. *)
Record App := {
  messages : list ChatMessage;
  isProcessing : bool;
  englishInput : jsstring;
  feedbackMessage : option Feedback;
  gameState : GameState;
  chatSession : option Chat
}.

Inductive JsError := js_error (message : jsstring).

(** How a call into the environment ends. *)
Inductive Outcome (A : Type) :=
| Resolves (value : A)
| Rejects (err : JsError).
Arguments Resolves {A} value.
Arguments Rejects {A} err.

Record GroundingMetadata := {
  gm_groundingChunks : option (list GroundingChunk)
}.

Record Candidate := { groundingMetadata : option GroundingMetadata }.

(** What the content service answers: [result.text], [result.candidates]. *)
Record GenerateContentResponse := {
  resp_text : option jsstring;
  candidates : option (list Candidate)
}.

(** One [uuidv4()] and one [Date.now()]. *)
Record Stamp := { uuid : jsstring; now : Z }.

(** Requests that cross the service boundary. *)
Inductive Call :=
| ChatsCreate
| ChatSendMessage (message : jsstring)
| ModelsGenerateContent (contents : jsstring).

Inductive Obs :=
| Request (c : Call)
| Timer (ms : Z)
| Suspend (shown : App)
| Idle (shown : App).

Definition World : Type := App * list Obs.

Definition Act (A : Type) : Type := World -> A * World.

Definition ret {A} (a : A) : Act A := fun w => (a, w).

Definition bind {A B} (m : Act A) (k : A -> Act B) : Act B :=
  fun w => let (a, w') := m w in k a w'.

Declare Scope act_scope.
Delimit Scope act_scope with act.
Notation "x <- m ;; k" := (bind m (fun x => k))
  (at level 61, m at next level, right associativity) : act_scope.
Notation "m ;; k" := (bind m (fun _ => k))
  (at level 61, right associativity) : act_scope.
Local Open Scope act_scope.

(** The state as the current render shows it; a handler closes over it. *)
Definition render : Act App := fun w => (fst w, w).

Definition update (f : App -> App) : Act unit :=
  fun w => (tt, (f (fst w), snd w)).

Definition observe (o : Obs) : Act unit :=
  fun w => (tt, (fst w, snd w ++ [o])).

Definition request (c : Call) : Act unit := observe (Request c).

Definition suspend : Act unit := fun w => (tt, (fst w, snd w ++ [Suspend (fst w)])).

(** [await m]: [m] runs up to its own suspension, the component renders,
    and the handler resumes with the result. *)
Definition await {A} (m : Act A) : Act A :=
  r <- m ;; suspend ;; ret r.

Definition setMessages (f : list ChatMessage -> list ChatMessage) : Act unit :=
  update (fun a =>
    {| messages := f (messages a); isProcessing := isProcessing a;
       englishInput := englishInput a; feedbackMessage := feedbackMessage a;
       gameState := gameState a; chatSession := chatSession a |}).

Definition setIsProcessing (v : bool) : Act unit :=
  update (fun a =>
    {| messages := messages a; isProcessing := v;
       englishInput := englishInput a; feedbackMessage := feedbackMessage a;
       gameState := gameState a; chatSession := chatSession a |}).

Definition setEnglishInput (v : jsstring) : Act unit :=
  update (fun a =>
    {| messages := messages a; isProcessing := isProcessing a;
       englishInput := v; feedbackMessage := feedbackMessage a;
       gameState := gameState a; chatSession := chatSession a |}).

Definition setFeedbackMessage (v : option Feedback) : Act unit :=
  update (fun a =>
    {| messages := messages a; isProcessing := isProcessing a;
       englishInput := englishInput a; feedbackMessage := v;
       gameState := gameState a; chatSession := chatSession a |}).

Definition setGameState (f : GameState -> GameState) : Act unit :=
  update (fun a =>
    {| messages := messages a; isProcessing := isProcessing a;
       englishInput := englishInput a; feedbackMessage := feedbackMessage a;
       gameState := f (gameState a); chatSession := chatSession a |}).

Definition assign_chatSession (v : option Chat) : Act unit :=
  update (fun a =>
    {| messages := messages a; isProcessing := isProcessing a;
       englishInput := englishInput a; feedbackMessage := feedbackMessage a;
       gameState := gameState a; chatSession := v |}).

Definition TOTAL_TURNS : Z := 10.

(** The initial values of the [useState] cells; [chatSession] is [null]
    until [initChat] runs. *)
Definition initial_app : App :=
  {| messages := [];
     isProcessing := false;
     englishInput := [];
     feedbackMessage := None;
     gameState :=
       {| status := status_intro; location := None; currentTurn := 1;
          maxTurns := TOTAL_TURNS; activeChallenge := None;
          turnStep := concept |};
     chatSession := None |}.

(* ================================================================== *)
(** * The service client ([services/gemini]) *)
(* ================================================================== *)

Definition dquote : N := 0x22%N.

(** The prompt template of [generateBridgeResponse], line by line. *)
Definition bridgePrompt (targetContext userInput : jsstring) : jsstring :=
  [newline]
  ++ js "            You are a helpful Spanish tutor in a game context." ++ [newline]
  ++ js "            Target Grammar Context: " ++ [dquote] ++ targetContext ++ [dquote] ++ [newline]
  ++ js "            User's Input: " ++ [dquote] ++ userInput ++ [dquote] ++ [newline]
  ++ js "            " ++ [newline]
  ++ js "            Task: Create a 1-sentence conversational bridge." ++ [newline]
  ++ js "            1. Acknowledge the user's input politely (even if it's slightly off)." ++ [newline]
  ++ js "            2. Smoothly pivot to the Target Grammar Context." ++ [newline]
  ++ js "            " ++ [newline]
  ++ js "            Example:" ++ [newline]
  ++ js "            User: " ++ [dquote] ++ js "We can walk around." ++ [dquote] ++ [newline]
  ++ js "            Target: " ++ [dquote] ++ js "Se sacan fotos" ++ [dquote] ++ js " (Photos are taken)." ++ [newline]
  ++ js "            Response: " ++ [dquote]
  ++ js "Yes, walking is great, but this spot is actually most famous for taking photos."
  ++ [dquote] ++ [newline]
  ++ js "            " ++ [newline]
  ++ js "            Output only the response text." ++ [newline]
  ++ js "        ".

(** What [sendMessage] resolves to. *)
Record TurnResponse := {
  turnData : GameTurnData;
  tr_groundingChunks : option (list GroundingChunk)
}.

(** The Challenge that [sendMessage] substitutes when parsing throws. *)
Definition parse_error_turn : GameTurnData :=
  {| locationName := js "Connection Error";
     locationType := js "park";
     englishQuestion := js "Something went wrong. Can you reload?";
     spanishConcept := js "Error";
     question := js "Try refreshing the page.";
     options := [js "Reload"];
     correctAnswer := js "Reload";
     explanation := js "JSON Parse Error";
     isGameOver := Some false |}.

(** [result.text || "{}"] *)
Definition text_or_empty_object (t : option jsstring) : jsstring :=
  match t with
  | Some s => if truthy s then s else js "{}"
  | None => js "{}"
  end.

(** The clean-up of the response text before it is parsed. *)
Definition clean_response (t : option jsstring) : jsstring :=
  trim (replace_fences (text_or_empty_object t)).

(** [result.candidates?.[0]?.groundingMetadata?.groundingChunks] *)
Definition first_groundingChunks (result : GenerateContentResponse)
  : option (list GroundingChunk) :=
  match candidates result with
  | Some (candidate :: _) =>
      match groundingMetadata candidate with
      | Some md => gm_groundingChunks md
      | None => None
      end
  | _ => None
  end.

(** [chatSession = ai.chats.create(...)]; the model name, the system
    instruction and the tool configuration are constants of the module. *)
Definition initChat (created : Outcome Chat) : Act (Outcome Chat) :=
  request ChatsCreate ;;
  match created with
  | Resolves c => assign_chatSession (Some c) ;; ret (Resolves c)
  | Rejects e => ret (Rejects e)
  end.

(** [generateBridgeResponse]: both a rejected request and a response
    without text (the [TypeError] of [response.text.trim()]) end in the
    [catch], which returns [targetContext]. *)
Definition generateBridgeResponse (userInput targetContext : jsstring)
    (generated : Outcome GenerateContentResponse) : Act (Outcome jsstring) :=
  request (ModelsGenerateContent (bridgePrompt targetContext userInput)) ;;
  match generated with
  | Resolves response =>
      match resp_text response with
      | Some t => ret (Resolves (trim t))
      | None => ret (Resolves targetContext)
      end
  | Rejects _ => ret (Resolves targetContext)
  end.

Section Controller.

(** [JSON.parse] at the declared type of [turnData]; [None] when it
    throws. *)
Variable JSON_parse : jsstring -> option GameTurnData.

Definition parse_turn (cleaned : jsstring) : GameTurnData :=
  match JSON_parse cleaned with
  | Some data => data
  | None => parse_error_turn
  end.

Definition sendMessage (message : jsstring)
    (replied : Outcome GenerateContentResponse) : Act (Outcome TurnResponse) :=
  session <- (fun w => (chatSession (fst w), w)) ;;
  match session with
  | None => ret (Rejects (js_error (js "Chat session not initialized")))
  | Some _ =>
      request (ChatSendMessage message) ;;
      match replied with
      | Rejects e => ret (Rejects e)
      | Resolves result =>
          ret (Resolves
                 {| turnData := parse_turn (clean_response (resp_text result));
                    tr_groundingChunks := first_groundingChunks result |})
      end
  end.

(* ================================================================== *)
(** * The controller ([GameInterface.tsx]) *)
(* ================================================================== *)

Definition is_null {A} (o : option A) : bool :=
  match o with Some _ => false | None => true end.

(** Initialize Game: the effect that runs once on mount. *)
Definition startQuest (created : Outcome Chat)
    (replied : Outcome GenerateContentResponse) (stamp : Stamp) : Act unit :=
  setGameState (set_status status_loading) ;;
  c <- await (initChat created) ;;
  match c with
  | Rejects _ => setGameState (set_status status_error)
  | Resolves _ =>
      r <- await (sendMessage (js "START_GAME_MIZZOU_EDITION") replied) ;;
      match r with
      | Rejects _ => setGameState (set_status status_error)
      | Resolves response =>
          let initialMessage :=
            {| msg_id := uuid stamp; role := MODEL; text := None;
               structuredContent := Some (turnData response);
               groundingChunks := tr_groundingChunks response;
               timestamp := now stamp; isCorrect := None;
               step := Some concept |} in
          setMessages (fun _ => [initialMessage]) ;;
          setGameState (fun prev =>
            {| status := status_playing; location := location prev;
               currentTurn := 1; maxTurns := maxTurns prev;
               activeChallenge := Some (turnData response);
               turnStep := concept |})
      end
  end.

(** Step 1: Handle English Concept Input. *)
Definition handleEnglishSubmit (generated : Outcome GenerateContentResponse)
    (stamp : Stamp) : Act unit :=
  shown <- render ;;
  if negb (truthy (trim (englishInput shown)))
     || isProcessing shown
     || is_null (activeChallenge (gameState shown))
  then ret tt
  else
    match activeChallenge (gameState shown) with
    | None => ret tt
    | Some challenge =>
        let userInput := englishInput shown in
        setEnglishInput [] ;;
        setIsProcessing true ;;
        let userMsg :=
          {| msg_id := uuid stamp; role := USER; text := Some userInput;
             structuredContent := None; groundingChunks := None;
             timestamp := now stamp; isCorrect := None;
             step := Some concept |} in
        setMessages (fun prev => prev ++ [userMsg]) ;;
        bridge <- await (generateBridgeResponse userInput
                           (spanishConcept challenge) generated) ;;
        match bridge with
        | Resolves bridgeText =>
            setGameState (fun prev =>
              {| status := status prev; location := location prev;
                 currentTurn := currentTurn prev; maxTurns := maxTurns prev;
                 activeChallenge :=
                   match activeChallenge prev with
                   | Some c => Some (set_spanishConcept bridgeText c)
                   | None => None
                   end;
                 turnStep := grammar |})
        | Rejects _ => setGameState (set_turnStep grammar)
        end ;;
        setIsProcessing false
    end.

Definition correct_feedback : Feedback :=
  {| fb_text := [0xC2; 0xA1]%N ++ js "Correcto! Next stop...";
     fb_type := fb_success |}.

Definition incorrect_feedback (challenge : GameTurnData) : Feedback :=
  {| fb_text := js "Incorrect. " ++ explanation challenge ++ js " Try again!";
     fb_type := fb_error |}.

(** Step 2: Handle Spanish Option Select. *)
Definition handleOptionSelect (selectedOption : jsstring)
    (replied : Outcome GenerateContentResponse)
    (userStamp modelStamp : Stamp) : Act unit :=
  shown <- render ;;
  if isProcessing shown || is_null (activeChallenge (gameState shown))
  then ret tt
  else
    match activeChallenge (gameState shown) with
    | None => ret tt
    | Some challenge =>
        let correct := strict_eq selectedOption (correctAnswer challenge) in
        let userMsg :=
          {| msg_id := uuid userStamp; role := USER;
             text := Some selectedOption; structuredContent := None;
             groundingChunks := None; timestamp := now userStamp;
             isCorrect := Some correct; step := Some grammar |} in
        setMessages (fun prev => prev ++ [userMsg]) ;;
        if negb correct then
          setFeedbackMessage (Some (incorrect_feedback challenge))
        else
          setFeedbackMessage (Some correct_feedback) ;;
          setIsProcessing true ;;
          setGameState (set_activeChallenge None) ;;
          observe (Timer 1500) ;;
          suspend ;;
          setFeedbackMessage None ;;
          if currentTurn (gameState shown) >=? maxTurns (gameState shown) then
            setGameState (set_status status_finished) ;;
            setIsProcessing false
          else
            setGameState (fun prev =>
              set_currentTurn (currentTurn prev + 1) prev) ;;
            r <- await (sendMessage
                          (js "NEXT_TURN_"
                           ++ number_to_string
                                (currentTurn (gameState shown) + 1))
                          replied) ;;
            match r with
            | Resolves response =>
                let modelMsg :=
                  {| msg_id := uuid modelStamp; role := MODEL; text := None;
                     structuredContent := Some (turnData response);
                     groundingChunks := tr_groundingChunks response;
                     timestamp := now modelStamp; isCorrect := None;
                     step := Some concept |} in
                setMessages (fun prev => prev ++ [modelMsg]) ;;
                setGameState (fun prev =>
                  {| status := status prev; location := location prev;
                     currentTurn := currentTurn prev;
                     maxTurns := maxTurns prev;
                     activeChallenge := Some (turnData response);
                     turnStep := concept |})
            | Rejects _ => ret tt
            end ;;
            setIsProcessing false
    end.

(* ================================================================== *)
(** * Sessions: the mount effect followed by user events *)
(* ================================================================== *)

(** What the environment supplies to the mount effect. *)
Record Mount := {
  mount_created : Outcome Chat;
  mount_replied : Outcome GenerateContentResponse;
  mount_stamp : Stamp
}.

Inductive Event :=
| TypeEnglish (value : jsstring)
| SubmitEnglish (generated : Outcome GenerateContentResponse) (stamp : Stamp)
| SelectOption (selectedOption : jsstring)
    (replied : Outcome GenerateContentResponse) (userStamp modelStamp : Stamp).

Definition handler (e : Event) : Act unit :=
  match e with
  | TypeEnglish value => setEnglishInput value
  | SubmitEnglish generated stamp => handleEnglishSubmit generated stamp
  | SelectOption o replied us ms => handleOptionSelect o replied us ms
  end.

(** A handler runs to completion, then the component is idle in the
    state it reached. *)
Definition settle (m : Act unit) (w : World) : World :=
  let w' := snd (m w) in (fst w', snd w' ++ [Idle (fst w')]).

Definition dispatch (e : Event) (w : World) : World := settle (handler e) w.

Definition mounted (m : Mount) : World :=
  settle (startQuest (mount_created m) (mount_replied m) (mount_stamp m))
         (initial_app, [Idle initial_app]).

Definition run (m : Mount) (events : list Event) : World :=
  fold_left (fun w e => dispatch e w) events (mounted m).

Definition final (w : World) : App := fst w.

Fixpoint requests (t : list Obs) : list Call :=
  match t with
  | [] => []
  | Request c :: t' => c :: requests t'
  | _ :: t' => requests t'
  end.

(** The states the component showed, in order. *)
Fixpoint shown_states (t : list Obs) : list App :=
  match t with
  | [] => []
  | Suspend a :: t' => a :: shown_states t'
  | Idle a :: t' => a :: shown_states t'
  | _ :: t' => shown_states t'
  end.

Definition reachable (a : App) : Prop :=
  exists m events, a = final (run m events).

End Controller.

(* ================================================================== *)
(** * Vocabulary of the properties *)
(* ================================================================== *)

(** A response payload inside a fenced block: the opening fence with its
    language tag, a line break, the payload, a line break, the closing
    fence. *)
Definition fenced (payload : jsstring) : jsstring :=
  fence_json ++ [newline] ++ payload ++ newline_fence.

(** The component accepts input on [challenge]. *)
Definition accepting (a : App) (challenge : GameTurnData) : Prop :=
  isProcessing a = false
  /\ activeChallenge (gameState a) = Some challenge.


Definition active_grammar (a : App) (challenge : GameTurnData) : Prop :=
  status (gameState a) = status_playing
  /\ turnStep (gameState a) = grammar
  /\ accepting a challenge.

Definition whitespace_only (s : jsstring) : Prop :=
  Forall (fun c => is_js_whitespace c = true) s.

Definition rejected {A} (o : Outcome A) : Prop :=
  match o with Rejects _ => True | Resolves _ => False end.

(** The initial load throws: [initChat] does, or the first [sendMessage]. *)
Definition initial_load_throws (m : Mount) : Prop :=
  rejected (mount_created m) \/ rejected (mount_replied m).

(** The event is not a choice whose next-turn request is rejected. *)
Definition next_turn_resolves (e : Event) : Prop :=
  match e with
  | SelectOption _ replied _ _ => ~ rejected replied
  | _ => True
  end.

Definition turn_of (a : App) : Z := currentTurn (gameState a).

Definition turn_in_bounds (a : App) : Prop :=
  1 <= currentTurn (gameState a) <= maxTurns (gameState a).

(** ** Invariants of a session *)

(** The turn index is within bounds, and a challenge is active only
    while playing, with a session handle in place. *)
Definition session_inv (a : App) : Prop :=
  turn_in_bounds a
  /\ (activeChallenge (gameState a) <> None ->
      status (gameState a) = status_playing /\ chatSession a <> None).

(** While playing and not processing, a challenge is active. *)
Definition playing_inv (a : App) : Prop :=
  status (gameState a) = status_playing ->
  isProcessing a = false ->
  activeChallenge (gameState a) <> None.

Fixpoint ascending (from : Z) (l : list App) : Prop :=
  match l with
  | [] => True
  | b :: l' => from <= turn_of b /\ ascending (turn_of b) l'
  end.

(** The trace of a session starts at the initial state, ends at the
    current one, keeps [session_inv] and never lowers the turn index. *)
Definition world_inv (w : World) : Prop :=
  exists rest,
    shown_states (snd w) = initial_app :: rest
    /\ last rest initial_app = fst w
    /\ Forall session_inv (initial_app :: rest)
    /\ ascending 1 (initial_app :: rest).

(** ** Forgetting the end-of-game flag *)

Definition erase_turn (c : GameTurnData) : GameTurnData :=
  {| locationName := locationName c; locationType := locationType c;
     englishQuestion := englishQuestion c; spanishConcept := spanishConcept c;
     question := question c; options := options c;
     correctAnswer := correctAnswer c; explanation := explanation c;
     isGameOver := None |}.

Definition erase_message (m : ChatMessage) : ChatMessage :=
  {| msg_id := msg_id m; role := role m; text := text m;
     structuredContent := option_map erase_turn (structuredContent m);
     groundingChunks := groundingChunks m; timestamp := timestamp m;
     isCorrect := isCorrect m; step := step m |}.

Definition erase_game (g : GameState) : GameState :=
  {| status := status g; location := location g;
     currentTurn := currentTurn g; maxTurns := maxTurns g;
     activeChallenge := option_map erase_turn (activeChallenge g);
     turnStep := turnStep g |}.

Definition erase_app (a : App) : App :=
  {| messages := map erase_message (messages a);
     isProcessing := isProcessing a; englishInput := englishInput a;
     feedbackMessage := feedbackMessage a;
     gameState := erase_game (gameState a); chatSession := chatSession a |}.

Definition erase_obs (o : Obs) : Obs :=
  match o with
  | Suspend a => Suspend (erase_app a)
  | Idle a => Idle (erase_app a)
  | other => other
  end.

Definition erase_world (w : World) : World :=
  (erase_app (fst w), map erase_obs (snd w)).

Section FlagVariants.

Variable JSON_parse : jsstring -> option GameTurnData.

(** Two service responses deliver the same Challenge but for its flag. *)
Definition same_but_flag (r1 r2 : GenerateContentResponse) : Prop :=
  erase_turn (parse_turn JSON_parse (clean_response (resp_text r1)))
  = erase_turn (parse_turn JSON_parse (clean_response (resp_text r2)))
  /\ first_groundingChunks r1 = first_groundingChunks r2.

Definition outcome_variant (o1 o2 : Outcome GenerateContentResponse) : Prop :=
  match o1, o2 with
  | Resolves r1, Resolves r2 => same_but_flag r1 r2
  | Rejects e1, Rejects e2 => e1 = e2
  | _, _ => False
  end.

Definition event_variant (e1 e2 : Event) : Prop :=
  match e1, e2 with
  | TypeEnglish v1, TypeEnglish v2 => v1 = v2
  | SubmitEnglish g1 s1, SubmitEnglish g2 s2 => g1 = g2 /\ s1 = s2
  | SelectOption o1 r1 u1 m1, SelectOption o2 r2 u2 m2 =>
      o1 = o2 /\ outcome_variant r1 r2 /\ u1 = u2 /\ m1 = m2
  | _, _ => False
  end.

Definition mount_variant (m1 m2 : Mount) : Prop :=
  mount_created m1 = mount_created m2
  /\ outcome_variant (mount_replied m1) (mount_replied m2)
  /\ mount_stamp m1 = mount_stamp m2.

End FlagVariants.

(* ================================================================== *)
(** * A concrete session *)
(* ================================================================== *)

Module Scenario.

Definition library_turn : GameTurnData :=
  {| locationName := js "Ellis Library";
     locationType := js "library";
     englishQuestion := js "What is the main rule in this quiet room?";
     spanishConcept := js "We need to be quiet";
     question := js "Por eso, el letrero dice: '_____ (exigir) silencio'.";
     options := [js "Se exige"; js "Se busca"; js "Se buscan"];
     correctAnswer := js "Se exige";
     explanation := js "Singular object (silencio) -> Se exige.";
     isGameOver := Some false |}.

Definition library_turn_over : GameTurnData :=
  {| locationName := js "Ellis Library";
     locationType := js "library";
     englishQuestion := js "What is the main rule in this quiet room?";
     spanishConcept := js "We need to be quiet";
     question := js "Por eso, el letrero dice: '_____ (exigir) silencio'.";
     options := [js "Se exige"; js "Se busca"; js "Se buscan"];
     correctAnswer := js "Se exige";
     explanation := js "Singular object (silencio) -> Se exige.";
     isGameOver := Some true |}.

(** A stand-in for [JSON.parse] that knows two payloads. *)
Definition parse (s : jsstring) : option GameTurnData :=
  if strict_eq s (js "{library}") then Some library_turn
  else if strict_eq s (js "{library,over}") then Some library_turn_over
  else None.

Definition stamp (n : Z) : Stamp := {| uuid := number_to_string n; now := n |}.

Definition answers (t : string) : Outcome GenerateContentResponse :=
  Resolves {| resp_text := Some (js t); candidates := None |}.

Definition unavailable {A} : Outcome A :=
  Rejects (js_error (js "503 Service Unavailable")).

Definition good_mount : Mount :=
  {| mount_created := Resolves chat_handle;
     mount_replied := answers "{library}";
     mount_stamp := stamp 0 |}.

Definition good_mount_over : Mount :=
  {| mount_created := Resolves chat_handle;
     mount_replied := answers "{library,over}";
     mount_stamp := stamp 0 |}.

Definition failed_mount : Mount :=
  {| mount_created := Resolves chat_handle;
     mount_replied := unavailable;
     mount_stamp := stamp 0 |}.

(** The player answers the concept question and reaches the grammar
    question of the first turn. *)
Definition to_grammar : list Event :=
  [ TypeEnglish (js "keep quiet");
    SubmitEnglish (answers "Yes, and silence is required here.") (stamp 1) ].


Definition next_turn_won : list Event :=
  to_grammar
  ++ [ SelectOption (js "Se busca") (answers "{library}") (stamp 2) (stamp 3);
       SelectOption (js "Se exige") (answers "{library}") (stamp 4) (stamp 5) ].

Definition next_turn_won_over : list Event :=
  to_grammar
  ++ [ SelectOption (js "Se busca") (answers "{library}") (stamp 2) (stamp 3);
       SelectOption (js "Se exige") (answers "{library,over}") (stamp 4) (stamp 5) ].


Definition at_grammar : App := final (run parse good_mount to_grammar).

(** The challenge of the first turn after the bridge replaced its
    context. *)
Definition bridged_turn : GameTurnData :=
  set_spanishConcept (js "Yes, and silence is required here.") library_turn.

(** The same state on the last turn. *)
Definition at_last_grammar : App :=
  {| messages := messages at_grammar; isProcessing := false;
     englishInput := []; feedbackMessage := None;
     gameState := set_currentTurn TOTAL_TURNS (gameState at_grammar);
     chatSession := chatSession at_grammar |}.

Definition at_concept_blank : App :=
  {| messages := messages (final (mounted parse good_mount));
     isProcessing := false;
     englishInput := js "   ";
     feedbackMessage := None;
     gameState := gameState (final (mounted parse good_mount));
     chatSession := Some chat_handle |}.

End Scenario.

(* ================================================================== *)
(** * The message view ([ChatMessage.tsx]) *)
(* ================================================================== *)

(** What a property read [obj[key]] yields on an object literal whose own
    values are strings: an own value, a member inherited from
    [Object.prototype], or [undefined]. *)
Inductive Member :=
| Own (value : jsstring)
| Inherited (name : jsstring)
| Undefined.

(** The property names of [Object.prototype]. *)
Definition object_prototype_members : list jsstring :=
  map js [ "constructor"; "hasOwnProperty"; "isPrototypeOf";
           "propertyIsEnumerable"; "toLocaleString"; "toString"; "valueOf";
           "__proto__"; "__defineGetter__"; "__defineSetter__";
           "__lookupGetter__"; "__lookupSetter__" ]%string.

Fixpoint own_property (obj : list (jsstring * jsstring)) (key : jsstring)
  : option jsstring :=
  match obj with
  | [] => None
  | (k, v) :: obj' => if strict_eq key k then Some v else own_property obj' key
  end.

(** [obj[key]] *)
Definition member (obj : list (jsstring * jsstring)) (key : jsstring) : Member :=
  match own_property obj key with
  | Some v => Own v
  | None =>
      if existsb (strict_eq key) object_prototype_members
      then Inherited key
      else Undefined
  end.

(** Inherited members are functions or objects, hence truthy. *)
Definition member_truthy (m : Member) : bool :=
  match m with
  | Own v => truthy v
  | Inherited _ => true
  | Undefined => false
  end.

(** The [map] of [getLocationImage]. *)
Definition location_images : list (jsstring * jsstring) :=
  [
    (js "library",
     js "https://images.unsplash.com/photo-1568667256549-094345857637?auto=format&fit=crop&w=800&q=80");
    (js "gym",
     js "https://images.unsplash.com/photo-1534438327276-14e5300c3a48?auto=format&fit=crop&w=800&q=80");
    (js "pool",
     js "https://images.unsplash.com/photo-1576610616656-d3aa5d1f4534?auto=format&fit=crop&w=800&q=80");
    (js "pizza",
     js "https://images.unsplash.com/photo-1513104890138-7c749659a591?auto=format&fit=crop&w=800&q=80");
    (js "food",
     js "https://images.unsplash.com/photo-1550547660-d9450f859349?auto=format&fit=crop&w=800&q=80");
    (js "store",
     js "https://images.unsplash.com/photo-1578916171728-46686eac8d58?auto=format&fit=crop&w=800&q=80");
    (js "park",
     js "https://images.unsplash.com/photo-1496302662116-35cc4f36df92?auto=format&fit=crop&w=800&q=80");
    (js "coffee",
     js "https://images.unsplash.com/photo-1509042239860-f550ce710b93?auto=format&fit=crop&w=800&q=80");
    (js "outdoors",
     js "https://images.unsplash.com/photo-1541339907198-e08756dedf3f?auto=format&fit=crop&w=800&q=80")
  ].

(** Helper to get a relevant image based on the keyword from the service:
    [map[type] || map['outdoors']]. *)
Definition getLocationImage (type : jsstring) : Member :=
  let found := member location_images type in
  if member_truthy found then found
  else member location_images (js "outdoors").

(** [c.maps?.uri] *)
Definition chunk_maps_uri (c : GroundingChunk) : option jsstring :=
  match maps c with
  | Some m => Some (maps_uri m)
  | None => None
  end.

Definition option_truthy (o : option jsstring) : bool :=
  match o with
  | Some s => truthy s
  | None => false
  end.

(** [message.groundingChunks?.find(c => c.maps?.uri)?.maps?.uri] *)
Definition primaryMapLink (message : ChatMessage) : option jsstring :=
  match groundingChunks message with
  | None => None
  | Some chunks =>
      match find (fun c => option_truthy (chunk_maps_uri c)) chunks with
      | Some c => chunk_maps_uri c
      | None => None
      end
  end.

(** The three looks of a user bubble: an English answer, a correct
    choice, any other choice. *)
Inductive BubbleStyle := english_bubble | correct_bubble | plain_bubble.

(** The header of a turn: the stop, its picture, the map link when there
    is one, and the English prompt. *)
Record StopCard := {
  card_location : jsstring;
  card_image : Member;
  card_mapLink : option jsstring;
  card_question : jsstring
}.

(** What the [ChatMessage] component renders, styling apart. *)
Inductive MessageView :=
| UserBubble (shown : option jsstring) (style : BubbleStyle) (enlarged : bool)
| FallbackNote (note : jsstring)
| TurnView (card : option StopCard).

Definition is_true (o : option bool) : bool :=
  match o with Some true => true | _ => false end.

Definition render_ChatMessage (message : ChatMessage) : MessageView :=
  match role message with
  | USER =>
      UserBubble (text message)
        (match step message with
         | Some concept => english_bubble
         | _ => if is_true (isCorrect message) then correct_bubble
                else plain_bubble
         end)
        (is_true (isCorrect message))
  | _ =>
      match structuredContent message with
      | None =>
          FallbackNote (match text message with
                        | Some t => if truthy t then t else js "Loading..."
                        | None => js "Loading..."
                        end)
      | Some content =>
          let link := primaryMapLink message in
          let locationImage := getLocationImage (locationType content) in
          TurnView
            (match step message with
             | Some concept =>
                 Some {| card_location := locationName content;
                         card_image := locationImage;
                         card_mapLink :=
                           if option_truthy link then link else None;
                         card_question := englishQuestion content |}
             | _ => None
             end)
      end
  end.

(* ================================================================== *)
(** * The game screen (the render of [GameInterface.tsx]) *)
(* ================================================================== *)

(** The input panel of the current phase. *)
Inductive InputPanel :=
| ConceptForm (prompt value : jsstring) (submitDisabled : bool)
| GrammarChoices (context fillIn : jsstring) (choices : list jsstring).

(** The interactive area: the error feedback, when there is one, above
    the panel. *)
Record InteractiveArea := {
  area_error : option jsstring;
  area_panel : InputPanel
}.

(** The main layout: the stop counter of the header, the chat stream with
    its "Thinking..." indicator and success banner, and the interactive
    area when it is rendered.  The grammar guide, the width of the
    progress bar and all styling are left out. *)
Record GameLayout := {
  stop_number : Z;
  stop_total : Z;
  chat : list MessageView;
  thinking : bool;
  success_banner : option jsstring;
  interactive : option InteractiveArea
}.

Inductive Screen :=
| LoadingScreen
| FinishedScreen
| GameScreen (layout : GameLayout).

Definition feedback_of (kind : FeedbackType) (f : option Feedback)
  : option jsstring :=
  match f with
  | Some fb =>
      match fb_type fb, kind with
      | fb_success, fb_success => Some (fb_text fb)
      | fb_error, fb_error => Some (fb_text fb)
      | _, _ => None
      end
  | None => None
  end.

Definition render_GameInterface (a : App) : Screen :=
  let gameState := gameState a in
  match status gameState with
  | status_loading | status_intro => LoadingScreen
  | status_finished => FinishedScreen
  | _ =>
      GameScreen
        {| stop_number := currentTurn gameState;
           stop_total := maxTurns gameState;
           chat := map render_ChatMessage (messages a);
           thinking := isProcessing a;
           success_banner := feedback_of fb_success (feedbackMessage a);
           interactive :=
             match activeChallenge gameState with
             | Some challenge =>
                 if negb (isProcessing a) then
                   Some {| area_error :=
                             feedback_of fb_error (feedbackMessage a);
                           area_panel :=
                             match turnStep gameState with
                             | concept =>
                                 ConceptForm (englishQuestion challenge)
                                   (englishInput a)
                                   (negb (truthy (trim (englishInput a))))
                             | grammar =>
                                 GrammarChoices (spanishConcept challenge)
                                   (question challenge) (options challenge)
                             end |}
                 else None
             | None => None
             end |}
  end.

(* ================================================================== *)
(** * Vocabulary of the further properties *)
(* ================================================================== *)

(** The input that a screen offers: typing and submitting in the concept
    form (the form submits on Enter whether or not its button is
    disabled), and a click on one of the choices shown. *)
Definition offers (s : Screen) (e : Event) : Prop :=
  match s with
  | GameScreen layout =>
      match interactive layout with
      | Some area =>
          match area_panel area, e with
          | ConceptForm _ _ _, TypeEnglish _ => True
          | ConceptForm _ _ _, SubmitEnglish _ _ => True
          | GrammarChoices _ _ choices, SelectOption o _ _ _ => In o choices
          | _, _ => False
          end
      | None => False
      end
  | _ => False
  end.

(** The screen offers no input at all. *)
Definition input_locked (s : Screen) : Prop :=
  match s with
  | GameScreen layout => interactive layout = None
  | _ => True
  end.

(** The states at which a handler was suspended. *)
Fixpoint suspended_states (t : list Obs) : list App :=
  match t with
  | [] => []
  | Suspend a :: t' => a :: suspended_states t'
  | _ :: t' => suspended_states t'
  end.

(** The chat history of [b] continues that of [a]. *)
Definition history_extends (a b : App) : Prop :=
  exists more, messages b = messages a ++ more.

(** Consecutive states are related by [R], starting from [from]. *)
Fixpoint linked (R : App -> App -> Prop) (from : App) (l : list App) : Prop :=
  match l with
  | [] => True
  | b :: l' => R from b /\ linked R b l'
  end.

Definition is_model (m : ChatMessage) : bool :=
  match role m with MODEL => true | _ => false end.

Definition is_concept_answer (m : ChatMessage) : bool :=
  match role m, step m with
  | USER, Some concept => true
  | _, _ => false
  end.

Definition is_choice (m : ChatMessage) : bool :=
  match role m, step m with
  | USER, Some grammar => true
  | _, _ => false
  end.

(** The challenge that the last MODEL entry of a history presents. *)
Definition last_delivered (msgs : list ChatMessage) : option GameTurnData :=
  match filter is_model (rev msgs) with
  | m :: _ => structuredContent m
  | [] => None
  end.


Section Steps.

Variable JSON_parse : jsstring -> option GameTurnData.

(** What one event adds to a session that is in state [a]: the states
    shown, those at which the handler was suspended, the requests. *)
Definition news_of (e : Event) (a : App) : list App :=
  shown_states (snd (dispatch JSON_parse e (a, []))).

Definition suspensions_of (e : Event) (a : App) : list App :=
  suspended_states (snd (dispatch JSON_parse e (a, []))).

Definition requests_of (e : Event) (a : App) : list Call :=
  requests (snd (dispatch JSON_parse e (a, []))).

(** A session driven through the screen: every event is one that the
    screen of the current state offers. *)
Fixpoint offered_along (a : App) (events : list Event) : Prop :=
  match events with
  | [] => True
  | e :: events' =>
      offers (render_GameInterface a) e
      /\ offered_along (fst (dispatch JSON_parse e (a, []))) events'
  end.

End Steps.

(** The state in which a handler leaves the component. *)
Definition settled (a : App) : Prop :=
  isProcessing a = false
  /\ feedback_of fb_success (feedbackMessage a) = None.

(** In a session [maxTurns] stays at [TOTAL_TURNS], and a finished game
    stands at the last turn. *)
Definition finish_inv (a : App) : Prop :=
  maxTurns (gameState a) = TOTAL_TURNS
  /\ (status (gameState a) = status_finished ->
      currentTurn (gameState a) = TOTAL_TURNS).

(** The active challenge is the one that the last MODEL entry of the
    history presents, its [spanishConcept] apart, and the history holds
    one MODEL entry per turn. *)
Definition presents_active (a : App) : Prop :=
  forall challenge,
    activeChallenge (gameState a) = Some challenge ->
    (exists delivered,
        last_delivered (messages a) = Some delivered
        /\ challenge = set_spanishConcept (spanishConcept challenge) delivered)
    /\ Z.of_nat (List.length (filter is_model (messages a)))
       = currentTurn (gameState a).

Definition is_correct_choice (m : ChatMessage) : bool :=
  is_choice m && is_true (isCorrect m).

(** While a challenge is active, the history holds one correct choice and
    one English answer per completed turn, and the English answer of the
    current turn once its phase is grammar. *)
Definition turn_progress (a : App) : Prop :=
  activeChallenge (gameState a) <> None ->
  Z.of_nat (List.length (filter is_correct_choice (messages a)))
  = currentTurn (gameState a) - 1
  /\ Z.of_nat (List.length (filter is_concept_answer (messages a)))
     = currentTurn (gameState a) - 1
       + match turnStep (gameState a) with grammar => 1 | concept => 0 end.

(** [s] without its final line break, when it ends in one. *)
Fixpoint chomp (s : jsstring) : jsstring :=
  match s with
  | [] => []
  | c :: t =>
      match t with
      | [] => if N.eqb c newline then [] else [c]
      | _ :: _ => c :: chomp t
      end
  end.

(** The feedback on screen, when there is one, is the explanation of the
    active challenge, in its grammar phase. *)
Definition feedback_explains (a : App) : Prop :=
  forall fb,
    feedbackMessage a = Some fb ->
    turnStep (gameState a) = grammar
    /\ exists challenge,
         activeChallenge (gameState a) = Some challenge
         /\ fb = {| fb_text := js "Incorrect. " ++ explanation challenge
                               ++ js " Try again!";
                    fb_type := fb_error |}.

(** The messages sent to the chat session. *)
Fixpoint sent_messages (calls : list Call) : list jsstring :=
  match calls with
  | [] => []
  | ChatSendMessage message :: calls' => message :: sent_messages calls'
  | _ :: calls' => sent_messages calls'
  end.

(** The next-turn messages for the turns 2 to [upto]. *)
Definition turn_requests (upto : Z) : list jsstring :=
  map (fun k => js "NEXT_TURN_" ++ number_to_string (Z.of_nat k))
      (seq 2 (Z.to_nat upto - 1)).

(** The fences a response may arrive in: with or without the language
    tag, with or without the line breaks next to the payload. *)
Definition opening_fence (tagged broken : bool) : jsstring :=
  fence ++ (if tagged then js "json" else [])
        ++ (if broken then [newline] else []).

Definition closing_fence (broken : bool) : jsstring :=
  (if broken then [newline] else []) ++ fence.

(* ================================================================== *)
(** * Further concrete sessions *)
(* ================================================================== *)

Module Walkthrough.

Import Scenario.

(** One turn played through the screen: type, submit, pick the answer. *)
Definition one_turn (n : nat) : list Event :=
  [ TypeEnglish (js "keep quiet");
    SubmitEnglish (answers "Yes, and silence is required here.")
      (stamp (Z.of_nat (3 * n)));
    SelectOption (js "Se exige") (answers "{library}")
      (stamp (Z.of_nat (3 * n + 1))) (stamp (Z.of_nat (3 * n + 2))) ].

(** The ten turns of a game. *)
Definition full_game : list Event := flat_map one_turn (seq 1 10).

(** A challenge whose correct answer is not among its choices. *)
Definition broken_turn : GameTurnData :=
  {| locationName := js "Memorial Stadium";
     locationType := js "stadium";
     englishQuestion := js "What do fans do here?";
     spanishConcept := js "Everybody cheers";
     question := js "Aqui _____ (gritar) MIZ-ZOU.";
     options := [js "Se grita"; js "Gritan"; js "Se gritan"];
     correctAnswer := js "se grita";
     explanation := js "Singular -> Se grita.";
     isGameOver := Some false |}.

Definition at_broken : App :=
  {| messages := messages at_grammar; isProcessing := false;
     englishInput := []; feedbackMessage := None;
     gameState := set_activeChallenge (Some broken_turn) (gameState at_grammar);
     chatSession := chatSession at_grammar |}.

Definition broken_clicks : list Event :=
  [ SelectOption (js "Se grita") (answers "{library}") (stamp 7) (stamp 8);
    SelectOption (js "Gritan") (answers "{library}") (stamp 9) (stamp 10) ].

(** The state shown while the first request of the load is pending. *)
Definition while_loading : App :=
  hd initial_app (suspended_states (snd (mounted parse good_mount))).


(** A delivered turn whose grounding has a web source before its place. *)
Definition grounded_message : ChatMessage :=
  {| msg_id := js "m1"; role := MODEL; text := None;
     structuredContent := Some library_turn;
     groundingChunks :=
       Some [ {| maps := None;
                 web := Some {| web_uri := js "https://library.missouri.edu";
                                web_title := js "Ellis Library" |} |};
              {| maps := Some {| maps_uri := js "https://maps.google.com/?cid=1";
                                 maps_title := js "Ellis Library";
                                 placeAnswerSources := None |};
                 web := None |} ];
     timestamp := 0; isCorrect := None; step := Some concept |}.

End Walkthrough.

(* ================================================================== *)
(** * Facts about strings *)
(* ================================================================== *)

Lemma strict_eq_true_iff (a b : jsstring) : strict_eq a b = true <-> a = b.
Proof.
  revert b; induction a as [|x a IH]; intros [|y b]; simpl;
    try (split; [discriminate | congruence]); try tauto.
  rewrite andb_true_iff, N.eqb_eq, IH.
  split; [intros [-> ->]; reflexivity | intros H; injection H; auto].
Qed.

Lemma strict_eq_false_iff (a b : jsstring) : strict_eq a b = false <-> a <> b.
Proof.
  rewrite <- strict_eq_true_iff.
  destruct (strict_eq a b); split; congruence.
Qed.

Lemma trim_start_whitespace_only (s : jsstring) :
  whitespace_only s -> trim_start s = [].
Proof.
  induction 1 as [|c s Hc _ IH]; simpl; [reflexivity|].
  rewrite Hc; exact IH.
Qed.

Lemma trim_whitespace_only (s : jsstring) : whitespace_only s -> trim s = [].
Proof.
  intros H; unfold trim, trim_end.
  rewrite (trim_start_whitespace_only s H); reflexivity.
Qed.

Lemma drop_prefix_cons (p : N) (pre : jsstring) (c : N) (s : jsstring) :
  drop_prefix (p :: pre) (c :: s)
  = if N.eqb p c then drop_prefix pre s else None.
Proof. reflexivity. Qed.

Lemma drop_prefix_Some (pre s r : jsstring) :
  drop_prefix pre s = Some r -> s = pre ++ r.
Proof.
  revert s; induction pre as [|p pre IH]; intros s; simpl.
  - congruence.
  - destruct s as [|c s]; [discriminate|].
    destruct (N.eqb_spec p c) as [->|]; [|discriminate].
    intros H; rewrite (IH _ H); reflexivity.
Qed.

Lemma drop_prefix_app (pre s r x : jsstring) :
  drop_prefix pre s = Some r -> drop_prefix pre (s ++ x) = Some (r ++ x).
Proof.
  revert s; induction pre as [|p pre IH]; intros s; simpl.
  - intros H; injection H as ->; reflexivity.
  - destruct s as [|c s]; [discriminate|]; simpl.
    destruct (N.eqb p c); [apply IH | discriminate].
Qed.

(** No match of [pre] can reach into a continuation that starts with a
    code unit foreign to [pre]. *)
Lemma drop_prefix_None_app (pre s : jsstring) (c : N) (x : jsstring) :
  ~ In c pre ->
  drop_prefix pre s = None -> drop_prefix pre (s ++ c :: x) = None.
Proof.
  revert s; induction pre as [|p pre IH]; intros s Hc; simpl.
  - discriminate.
  - destruct s as [|d s]; simpl.
    + intros _. destruct (N.eqb_spec p c) as [->|]; [|reflexivity].
      exfalso; apply Hc; left; reflexivity.
    + destruct (N.eqb p d); [|reflexivity].
      apply IH. intros Hin; apply Hc; right; exact Hin.
Qed.

Lemma fence_match_length_le (s : jsstring) :
  (fence_match_length s <= List.length s)%nat.
Proof.
  unfold fence_match_length.
  destruct (drop_prefix fence_json s) as [rest|] eqn:E1.
  - apply drop_prefix_Some in E1; subst s.
    destruct rest as [|c rest]; simpl; [lia|].
    destruct (N.eqb c newline); lia.
  - destruct (drop_prefix newline_fence s) as [rest|] eqn:E2.
    + apply drop_prefix_Some in E2; subst s; simpl; lia.
    + destruct (drop_prefix fence s) as [rest|] eqn:E3; [|lia].
      apply drop_prefix_Some in E3; subst s; simpl; lia.
Qed.

(** Appending the closing fence changes no match that starts inside a
    non-empty [s], except that the tag ending [s] takes the line break. *)
Lemma fence_match_length_closing (s : jsstring) :
  s <> [] -> s <> fence_json ->
  fence_match_length (s ++ newline_fence) = fence_match_length s.
Proof.
  intros Hne Htag. unfold fence_match_length.
  destruct (drop_prefix fence_json s) as [rest|] eqn:E1.
  - rewrite (drop_prefix_app _ _ _ newline_fence E1).
    destruct rest as [|c rest]; [|reflexivity].
    apply drop_prefix_Some in E1. rewrite app_nil_r in E1. contradiction.
  - assert (E1' : drop_prefix fence_json (s ++ newline_fence) = None).
    { apply (drop_prefix_None_app fence_json s newline fence);
        [simpl; intuition discriminate | exact E1]. }
    rewrite E1'.
    destruct s as [|d s]; [contradiction|].
    assert (Hf : forall u, drop_prefix fence u = None ->
                           drop_prefix fence (u ++ newline_fence) = None).
    { intros u Hu. apply (drop_prefix_None_app fence u newline fence);
        [simpl; intuition discriminate | exact Hu]. }
    destruct (drop_prefix newline_fence (d :: s)) as [rest|] eqn:E2.
    + rewrite (drop_prefix_app _ _ _ newline_fence E2); reflexivity.
    + replace (drop_prefix newline_fence ((d :: s) ++ newline_fence))
        with (@None jsstring).
      * destruct (drop_prefix fence (d :: s)) as [rest|] eqn:E3.
        -- rewrite (drop_prefix_app _ _ _ newline_fence E3); reflexivity.
        -- rewrite (Hf _ E3); reflexivity.
      * symmetry.
        change (drop_prefix (newline :: fence) (d :: (s ++ newline_fence))
                = None).
        change (drop_prefix (newline :: fence) (d :: s) = None) in E2.
        rewrite drop_prefix_cons in E2 |- *.
        destruct (N.eqb newline d); [apply Hf; exact E2 | reflexivity].
Qed.

Lemma replace_fences_from_cons (c : N) (t : jsstring) :
  replace_fences_from 0 (c :: t)
  = match fence_match_length (c :: t) with
    | S k => replace_fences_from k t
    | O => c :: replace_fences_from 0 t
    end.
Proof. reflexivity. Qed.

Lemma replace_fences_from_closing (p : jsstring) :
  forall k, (k <= List.length p)%nat ->
  replace_fences_from k (p ++ newline_fence) = replace_fences_from k p.
Proof.
  induction p as [|c t IH]; intros k Hk.
  - simpl in Hk. replace k with 0%nat by lia. reflexivity.
  - destruct k as [|k].
    + destruct (list_eq_dec N.eq_dec (c :: t) fence_json) as [E|Htag].
      * rewrite E; reflexivity.
      * change ((c :: t) ++ newline_fence) with (c :: (t ++ newline_fence)).
        rewrite !replace_fences_from_cons.
        change (c :: (t ++ newline_fence)) with ((c :: t) ++ newline_fence).
        rewrite fence_match_length_closing by (discriminate || exact Htag).
        pose proof (fence_match_length_le (c :: t)) as Hle.
        destruct (fence_match_length (c :: t)) as [|n].
        -- rewrite IH by lia. reflexivity.
        -- apply IH. simpl in Hle. lia.
    + simpl. apply IH. simpl in Hk. lia.
Qed.


Lemma fence_match_length_no_backtick (s : jsstring) :
  ~ In backtick s -> fence_match_length s = 0%nat.
Proof.
  intros Hs. unfold fence_match_length.
  assert (H : forall pre, In backtick pre -> drop_prefix pre s = None).
  { intros pre Hpre. destruct (drop_prefix pre s) as [r|] eqn:E; [|reflexivity].
    apply drop_prefix_Some in E. exfalso; apply Hs. subst s.
    apply in_or_app; left; exact Hpre. }
  rewrite !H; simpl; auto.
Qed.

Lemma replace_fences_no_backtick (s : jsstring) :
  ~ In backtick s -> replace_fences s = s.
Proof.
  unfold replace_fences. induction s as [|c t IH]; intros Hs; [reflexivity|].
  rewrite replace_fences_from_cons, (fence_match_length_no_backtick _ Hs).
  rewrite IH; [reflexivity|]. intros Hin; apply Hs; right; exact Hin.
Qed.



(* ================================================================== *)
(** * Facts about traces *)
(* ================================================================== *)

Lemma requests_app (t u : list Obs) : requests (t ++ u) = requests t ++ requests u.
Proof.
  induction t as [|o t IH]; simpl; [reflexivity|].
  destruct o; simpl; rewrite IH; reflexivity.
Qed.

Lemma shown_states_app (t u : list Obs) :
  shown_states (t ++ u) = shown_states t ++ shown_states u.
Proof.
  induction t as [|o t IH]; simpl; [reflexivity|].
  destruct o; simpl; rewrite IH; reflexivity.
Qed.

Lemma set_spanishConcept_same (c : GameTurnData) :
  set_spanishConcept (spanishConcept c) c = c.
Proof. destruct c; reflexivity. Qed.

Arguments js : simpl never.
Arguments number_to_string : simpl never.
Arguments trim : simpl never.
Arguments strict_eq : simpl never.
Arguments bridgePrompt : simpl never.
Arguments clean_response : simpl never.
Arguments Z.add : simpl never.
Arguments Z.geb : simpl never.

(* ================================================================== *)
(** * Proof automation *)
(* ================================================================== *)

(** Unfold a handler down to the state and trace it computes. *)
Ltac unfold_act :=
  unfold handleOptionSelect, handleEnglishSubmit, startQuest, sendMessage,
    initChat, generateBridgeResponse, await, suspend, request, observe,
    setMessages, setIsProcessing, setEnglishInput, setFeedbackMessage,
    setGameState, assign_chatSession, update, render, bind, ret.

(** Case analysis on every test a handler makes. *)
Ltac split_tests :=
  repeat match goal with
  | |- context [isProcessing ?a] =>
      let E := fresh "Hproc" in destruct (isProcessing a) eqn:E; simpl
  | |- context [match activeChallenge ?g with _ => _ end] =>
      let E := fresh "Hactive" in destruct (activeChallenge g) eqn:E; simpl
  | |- context [is_null (activeChallenge ?g)] =>
      let E := fresh "Hactive" in destruct (activeChallenge g) eqn:E; simpl
  | |- context [truthy ?s] =>
      let E := fresh "Htext" in destruct (truthy s) eqn:E; simpl
  | |- context [strict_eq ?x ?y] =>
      let E := fresh "Hsel" in destruct (strict_eq x y) eqn:E; simpl
  | |- context [?x >=? ?y] =>
      let E := fresh "Hlast" in
      rewrite (Z.geb_leb x y); destruct (Z.leb_spec y x) as [E|E]; simpl
  | |- context [match chatSession ?a with _ => _ end] =>
      let E := fresh "Hsession" in destruct (chatSession a) eqn:E; simpl
  | |- context [match ?o with Resolves _ => _ | Rejects _ => _ end] =>
      is_var o; destruct o; simpl
  | |- context [match resp_text ?r with _ => _ end] =>
      let E := fresh "Htext" in destruct (resp_text r) eqn:E; simpl
  end.

Ltac shape_trace :=
  rewrite <- ?app_assoc; simpl;
  rewrite ?shown_states_app, ?requests_app; simpl;
  rewrite ?app_nil_r.

Ltac inv_facts :=
  unfold session_inv, playing_inv, turn_in_bounds, turn_of in *; simpl in *;
  intuition (try congruence; try lia).

(** The same handler run on two states that agree up to the flag. *)
Ltac variant_run :=
  unfold dispatch, settle, handler, erase_world; unfold_act; simpl;
  repeat match goal with
  | |- context [if ?b then _ else _] => destruct b eqn:?; simpl
  | |- context [match ?x with Some _ => _ | None => _ end] =>
      destruct x eqn:?; simpl
  | |- context [match ?x with Resolves _ => _ | Rejects _ => _ end] =>
      destruct x eqn:?; simpl
  end;
  rewrite ?map_app; simpl;
  unfold erase_app, erase_game, erase_message, erase_turn,
    incorrect_feedback in *; simpl in *;
  rewrite ?map_app; simpl;
  congruence.


(** Case analysis on the tests of a handler that read the state [a] it
    starts from. *)
Ltac split_guards :=
  repeat match goal with
  | H : isProcessing ?a = _ |- context [isProcessing ?a] =>
      is_var a; rewrite H; simpl
  | H : activeChallenge (gameState ?a) = _
    |- context [activeChallenge (gameState ?a)] =>
      is_var a; rewrite H; simpl
  | H : chatSession ?a = _ |- context [chatSession ?a] =>
      is_var a; rewrite H; simpl
  | H : resp_text ?r = _ |- context [resp_text ?r] =>
      is_var r; rewrite H; simpl
  | |- context [isProcessing ?a] =>
      is_var a; let E := fresh "Hproc" in destruct (isProcessing a) eqn:E; simpl
  | |- context [activeChallenge (gameState ?a)] =>
      is_var a;
      let E := fresh "Hactive" in
      destruct (activeChallenge (gameState a)) eqn:E; simpl
  | |- context [truthy (trim (englishInput ?a))] =>
      is_var a;
      let E := fresh "Htext" in
      destruct (truthy (trim (englishInput a))) eqn:E; simpl
  | |- context [strict_eq ?x (correctAnswer ?c)] =>
      is_var c;
      let E := fresh "Hsel" in
      destruct (strict_eq x (correctAnswer c)) eqn:E; simpl
  | |- context [currentTurn (gameState ?a) >=? maxTurns (gameState ?a)] =>
      is_var a;
      let E := fresh "Hlast" in
      rewrite (Z.geb_leb (currentTurn (gameState a)) (maxTurns (gameState a)));
      destruct (Z.leb_spec (maxTurns (gameState a)) (currentTurn (gameState a)))
        as [E|E]; simpl
  | |- context [chatSession ?a] =>
      is_var a;
      let E := fresh "Hsession" in destruct (chatSession a) eqn:E; simpl
  | |- context [match ?o with Resolves _ => _ | Rejects _ => _ end] =>
      is_var o; destruct o; simpl
  | |- context [resp_text ?r] =>
      is_var r;
      let E := fresh "Hresp" in destruct (resp_text r) eqn:E; simpl
  end.


(** A history that continues another by the entries appended. *)
Ltac extend_history :=
  unfold history_extends; simpl;
  first [ exists []; rewrite app_nil_r; reflexivity
        | eexists; reflexivity
        | eexists; rewrite <- ?app_assoc; reflexivity ].


(* ================================================================== *)
(** * Properties of the handlers *)
(* ================================================================== *)

Section Properties.

Variable JSON_parse : jsstring -> option GameTurnData.

Local Abbreviation sendMessage := (sendMessage JSON_parse).
Local Abbreviation handleOptionSelect := (handleOptionSelect JSON_parse).
Local Abbreviation parse_turn := (parse_turn JSON_parse).

(** C7. A phase-1 submission whose text is empty or consists of white
    space only is ignored: the handler returns with the component state
    (phase, active challenge, turn index, chat history and all the rest)
    and the observation trace exactly as they were, so no request was
    issued. *)
Theorem blank_submission_is_ignored
    (generated : Outcome GenerateContentResponse) (stamp : Stamp)
    (a : App) (t : list Obs) :
  whitespace_only (englishInput a) ->
  handleEnglishSubmit generated stamp (a, t) = (tt, (a, t)).
Proof.
  intros Hblank. unfold_act. simpl.
  rewrite (trim_whitespace_only _ Hblank). reflexivity.
Qed.

(** C4. In an active grammar phase, a choice other than the correct
    answer leaves the game state (phase, active challenge, turn index)
    as it was, appends exactly one chat entry (the user's attempt, marked
    incorrect), shows the challenge's explanation as error feedback, and
    adds nothing to the trace: no request and no suspension. *)
Theorem wrong_choice_keeps_turn
    (selected : jsstring) (replied : Outcome GenerateContentResponse)
    (userStamp modelStamp : Stamp) (a : App) (t : list Obs)
    (challenge : GameTurnData) :
  active_grammar a challenge ->
  selected <> correctAnswer challenge ->
  let w' := snd (handleOptionSelect selected replied userStamp modelStamp (a, t)) in
  gameState (fst w') = gameState a
  /\ messages (fst w')
     = messages a
       ++ [ {| msg_id := uuid userStamp; role := USER; text := Some selected;
               structuredContent := None; groundingChunks := None;
               timestamp := now userStamp; isCorrect := Some false;
               step := Some grammar |} ]
  /\ feedbackMessage (fst w')
     = Some {| fb_text := js "Incorrect. " ++ explanation challenge
                          ++ js " Try again!";
               fb_type := fb_error |}
  /\ snd w' = t.
Proof.
  intros (_ & _ & Hproc & Hactive) Hwrong.
  apply strict_eq_false_iff in Hwrong.
  unfold_act. simpl. rewrite Hproc, Hactive. simpl. rewrite Hwrong. simpl.
  repeat split; reflexivity.
Qed.

(** C5. In an active grammar phase on the last turn (turn index at or
    above [maxTurns]), the correct choice ends the game: the status
    becomes finished, the active challenge is cleared, and the handler
    issues no request. *)
Theorem correct_choice_on_last_turn_finishes
    (selected : jsstring) (replied : Outcome GenerateContentResponse)
    (userStamp modelStamp : Stamp) (a : App) (t : list Obs)
    (challenge : GameTurnData) :
  active_grammar a challenge ->
  selected = correctAnswer challenge ->
  currentTurn (gameState a) >= maxTurns (gameState a) ->
  let w' := snd (handleOptionSelect selected replied userStamp modelStamp (a, t)) in
  status (gameState (fst w')) = status_finished
  /\ activeChallenge (gameState (fst w')) = None
  /\ currentTurn (gameState (fst w')) = currentTurn (gameState a)
  /\ requests (snd w') = requests t.
Proof.
  intros (_ & _ & Hproc & Hactive) Hright Hlast.
  apply strict_eq_true_iff in Hright.
  assert (Hge : (currentTurn (gameState a) >=? maxTurns (gameState a)) = true)
    by (apply Z.geb_le; lia).
  unfold_act. simpl. rewrite Hproc, Hactive. simpl. rewrite Hright. simpl.
  rewrite Hge. simpl. rewrite !requests_app. simpl. rewrite !app_nil_r.
  repeat split; reflexivity.
Qed.




(* ================================================================== *)
(** * Invariants of a session *)
(* ================================================================== *)

Lemma last_app_nonempty (l l' : list App) (d d' : App) :
  l' <> [] -> last (l ++ l') d = last l' d'.
Proof.
  intros Hne. induction l as [|b l IH]; simpl.
  - destruct l' as [|c l']; [contradiction|]. clear Hne.
    revert c; induction l' as [|c' l' IH]; intros c; simpl; [reflexivity|].
    apply IH.
  - rewrite IH. destruct (l ++ l') eqn:E; [|reflexivity].
    apply app_eq_nil in E. destruct E; contradiction.
Qed.

Lemma ascending_app (from : Z) (l l' : list App) (d : App) :
  l <> [] -> ascending from l -> ascending (turn_of (last l d)) l' ->
  ascending from (l ++ l').
Proof.
  revert from; induction l as [|b l IH]; intros from Hne; [contradiction|].
  simpl. intros [H1 H2] H'. split; [exact H1|].
  destruct l as [|c l]; [exact H'|].
  apply IH; [discriminate | exact H2 | exact H'].
Qed.

Lemma ascending_In (l : list App) :
  forall from b, ascending from l -> In b l -> from <= turn_of b.
Proof.
  induction l as [|c l IH]; simpl; intros from b; [tauto|].
  intros [H1 H2] [->|Hin]; [exact H1|].
  specialize (IH _ _ H2 Hin). lia.
Qed.

Lemma ascending_nth (l : list App) :
  forall from i j a b, ascending from l -> (i <= j)%nat ->
    nth_error l i = Some a -> nth_error l j = Some b ->
    turn_of a <= turn_of b.
Proof.
  induction l as [|c l IH]; intros from i j a b Hasc Hij Hi Hj.
  - destruct i; discriminate.
  - destruct Hasc as [H1 H2]. destruct i as [|i], j as [|j]; simpl in *.
    + injection Hi as <-; injection Hj as <-; lia.
    + injection Hi as <-. apply nth_error_In in Hj.
      exact (ascending_In _ _ _ H2 Hj).
    + lia.
    + apply (IH _ i j a b H2); [lia | assumption | assumption].
Qed.

(** One event: the states shown on the way, the last of which is the
    state reached, keep the invariants and never lower the turn index. *)
Lemma dispatch_steps (e : Event) (a : App) (t : list Obs) :
  session_inv a ->
  exists news,
    shown_states (snd (dispatch JSON_parse e (a, t))) = shown_states t ++ news
    /\ news <> []
    /\ last news a = fst (dispatch JSON_parse e (a, t))
    /\ Forall session_inv news
    /\ ascending (turn_of a) news
    /\ (next_turn_resolves e -> playing_inv a -> Forall playing_inv news).
Proof.
  intros Hinv.
  unfold dispatch, settle, handler; destruct e; unfold_act; simpl;
    split_tests; shape_trace;
    (eexists; split; [reflexivity|]);
    (split; [discriminate|]); (split; [reflexivity|]);
    simpl; repeat split; repeat constructor; simpl; inv_facts.
Qed.

Lemma last_In (l : list App) (d : App) : In (last l d) (d :: l).
Proof.
  induction l as [|b l IH]; [left; reflexivity|].
  destruct l as [|c l]; [right; left; reflexivity|].
  change (last (b :: c :: l) d) with (last (c :: l) d).
  destruct IH as [IH|IH]; [left; exact IH | right; right; exact IH].
Qed.

Lemma world_inv_final (w : World) :
  world_inv w -> session_inv (fst w) /\ In (fst w) (shown_states (snd w)).
Proof.
  intros (rest & Hshown & Hlast & Hall & _).
  pose proof (last_In rest initial_app) as Hin. rewrite Hlast in Hin.
  rewrite Hshown. split; [|exact Hin].
  rewrite Forall_forall in Hall. apply Hall; exact Hin.
Qed.

Lemma mounted_inv (m : Mount) :
  world_inv (mounted JSON_parse m)
  /\ Forall playing_inv (shown_states (snd (mounted JSON_parse m))).
Proof.
  destruct m as [created replied stamp].
  unfold world_inv, mounted, settle; unfold_act; simpl.
  destruct created, replied; simpl; shape_trace;
    (split; [eexists; split; [reflexivity|]; split; [reflexivity|] |]);
    repeat split; repeat constructor; simpl; inv_facts;
    unfold TOTAL_TURNS; lia.
Qed.

Lemma dispatch_inv (e : Event) (w : World) :
  world_inv w ->
  world_inv (dispatch JSON_parse e w)
  /\ (next_turn_resolves e ->
      Forall playing_inv (shown_states (snd w)) ->
      Forall playing_inv (shown_states (snd (dispatch JSON_parse e w)))).
Proof.
  intros Hw. destruct (world_inv_final w Hw) as [Hinv Hin].
  destruct Hw as (rest & Hshown & Hlast & Hall & Hasc).
  destruct w as [a t]. simpl in Hshown, Hlast, Hinv, Hin.
  destruct (dispatch_steps e a t Hinv)
    as (news & Hnews & Hne & Hnlast & Hnall & Hnasc & Hplay).
  split.
  - exists (rest ++ news). rewrite Hnews, Hshown.
    split; [reflexivity|]. split; [|split].
    + rewrite (last_app_nonempty rest news initial_app a Hne). exact Hnlast.
    + change (Forall session_inv ((initial_app :: rest) ++ news)).
      apply Forall_app; split; assumption.
    + change (ascending 1 ((initial_app :: rest) ++ news)).
      apply (ascending_app 1 (initial_app :: rest) news initial_app);
        [discriminate | exact Hasc |].
      simpl last. destruct rest as [|b rest].
      * simpl in Hlast. rewrite Hlast. exact Hnasc.
      * rewrite Hlast. exact Hnasc.
  - intros Hok Hp. rewrite Hnews. apply Forall_app; split; [exact Hp|].
    apply Hplay; [exact Hok|].
    rewrite Forall_forall in Hp. apply Hp. exact Hin.
Qed.

Lemma fold_dispatch_inv (events : list Event) :
  forall w, world_inv w ->
    world_inv (fold_left (fun w e => dispatch JSON_parse e w) events w)
    /\ (Forall next_turn_resolves events ->
        Forall playing_inv (shown_states (snd w)) ->
        Forall playing_inv
          (shown_states
             (snd (fold_left (fun w e => dispatch JSON_parse e w) events w)))).
Proof.
  induction events as [|e events IH]; intros w Hw; simpl.
  - split; [exact Hw | intros _ H; exact H].
  - destruct (dispatch_inv e w Hw) as [Hw' Hp'].
    destruct (IH _ Hw') as [Hfinal Hp]. split; [exact Hfinal|].
    intros Hok Hplay. inversion Hok; subst. apply Hp; [assumption|].
    apply Hp'; assumption.
Qed.

Lemma run_inv (m : Mount) (events : list Event) :
  world_inv (run JSON_parse m events)
  /\ (Forall next_turn_resolves events ->
      Forall playing_inv (shown_states (snd (run JSON_parse m events)))).
Proof.
  destruct (mounted_inv m) as [Hw Hp].
  destruct (fold_dispatch_inv events _ Hw) as [H1 H2].
  split; [exact H1 | intros Hok; apply H2; assumption].
Qed.


(** C2. Along every session (any outcome of the load, any sequence of
    events) the turn index of the first state shown is 1, every state
    shown has its turn index between 1 and [maxTurns], and the turn index
    never decreases from a state to a later one. *)
Theorem turn_index_monotone_and_bounded (m : Mount) (events : list Event) :
  let shown := shown_states (snd (run JSON_parse m events)) in
  (exists first rest,
      shown = first :: rest /\ currentTurn (gameState first) = 1)
  /\ Forall (fun a =>
               1 <= currentTurn (gameState a) <= maxTurns (gameState a)) shown
  /\ (forall i j a b,
        (i <= j)%nat ->
        nth_error shown i = Some a -> nth_error shown j = Some b ->
        currentTurn (gameState a) <= currentTurn (gameState b)).
Proof.
  destruct (proj1 (run_inv m events)) as (rest & Hshown & _ & Hall & Hasc).
  simpl. rewrite Hshown. repeat split.
  - exists initial_app, rest. split; reflexivity.
  - eapply Forall_impl; [|exact Hall]. intros a [H _]. exact H.
  - intros i j a b Hij Hi Hj.
    exact (ascending_nth _ _ i j a b Hasc Hij Hi Hj).
Qed.



(** With no active challenge, an event changes neither the game state
    nor the chat history, and issues no request. *)
Lemma no_challenge_no_progress (e : Event) (a : App) (t : list Obs) :
  activeChallenge (gameState a) = None ->
  let w' := dispatch JSON_parse e (a, t) in
  gameState (fst w') = gameState a
  /\ messages (fst w') = messages a
  /\ requests (snd w') = requests t.
Proof.
  intros Hnone. unfold dispatch, settle, handler; destruct e; unfold_act;
    simpl; rewrite ?Hnone; simpl; rewrite ?orb_true_r; simpl;
    shape_trace; repeat split; reflexivity.
Qed.

Lemma no_challenge_forever (events : list Event) :
  forall w, activeChallenge (gameState (fst w)) = None ->
    let w' := fold_left (fun w e => dispatch JSON_parse e w) events w in
    gameState (fst w') = gameState (fst w)
    /\ messages (fst w') = messages (fst w)
    /\ requests (snd w') = requests (snd w).
Proof.
  induction events as [|e events IH]; intros [a t] Hnone;
    cbv zeta; cbn [fold_left fst snd] in *.
  - repeat split; reflexivity.
  - pose proof (no_challenge_no_progress e a t Hnone) as H.
    cbv zeta in H. destruct H as (Hg & Hm & Hr).
    assert (Hnone' : activeChallenge
                       (gameState (fst (dispatch JSON_parse e (a, t)))) = None)
      by (rewrite Hg; exact Hnone).
    pose proof (IH (dispatch JSON_parse e (a, t)) Hnone') as H'.
    cbv zeta in H'. destruct H' as (Hg' & Hm' & Hr').
    rewrite Hg', Hm', Hr', Hg, Hm, Hr. repeat split; reflexivity.
Qed.


(** C9. When the initial load throws, the status becomes error, there is
    no active challenge and the chat history is empty; and the state is
    terminal: whatever events follow, the game state stays as it is, the
    history stays empty, and no request is issued beyond those of the
    load itself, so nothing is retried. *)
Theorem failed_load_is_terminal (m : Mount) :
  initial_load_throws m ->
  let w0 := mounted JSON_parse m in
  status (gameState (final w0)) = status_error
  /\ activeChallenge (gameState (final w0)) = None
  /\ messages (final w0) = []
  /\ forall events,
       let w := run JSON_parse m events in
       gameState (final w) = gameState (final w0)
       /\ messages (final w) = []
       /\ requests (snd w) = requests (snd w0).
Proof.
  intros Hthrows.
  assert (H0 : status (gameState (final (mounted JSON_parse m))) = status_error
               /\ activeChallenge (gameState (final (mounted JSON_parse m))) = None
               /\ messages (final (mounted JSON_parse m)) = []).
  { destruct m as [created replied stamp].
    unfold initial_load_throws in Hthrows; simpl in Hthrows.
    unfold final, mounted, settle; unfold_act; simpl.
    destruct created as [session|e1]; simpl.
    - destruct replied as [result|e2]; simpl;
        [destruct Hthrows; contradiction|].
      repeat split; reflexivity.
    - repeat split; reflexivity. }
  destruct H0 as (Hstatus & Hnone & Hmsgs).
  simpl. repeat split; try assumption;
    destruct (no_challenge_forever events (mounted JSON_parse m) Hnone)
      as (Hg & Hm & Hr); unfold run, final; simpl in *; congruence.
Qed.

(* ------------------------------------------------------------------ *)
(** ** The end-of-game flag *)

Lemma outcome_variant_cases (o1 o2 : Outcome GenerateContentResponse) :
  outcome_variant JSON_parse o1 o2 ->
  (exists r1 r2, o1 = Resolves r1 /\ o2 = Resolves r2
                 /\ same_but_flag JSON_parse r1 r2)
  \/ (exists e, o1 = Rejects e /\ o2 = Rejects e).
Proof.
  destruct o1 as [r1|e1], o2 as [r2|e2]; simpl; try contradiction.
  - intros H; left; exists r1, r2; auto.
  - intros ->; right; exists e2; auto.
Qed.

Lemma dispatch_variant (e1 e2 : Event) (w1 w2 : World) :
  event_variant JSON_parse e1 e2 ->
  erase_world w1 = erase_world w2 ->
  erase_world (dispatch JSON_parse e1 w1) = erase_world (dispatch JSON_parse e2 w2).
Proof.
  intros He Hw. destruct w1 as [a1 t1], w2 as [a2 t2].
  assert (Ha : erase_app a1 = erase_app a2) by exact (f_equal fst Hw).
  assert (Ht : map erase_obs t1 = map erase_obs t2) by exact (f_equal snd Hw).
  clear Hw.
  destruct a1 as [msgs1 proc1 inp1 fb1 [st1 loc1 ct1 mt1 ac1 ts1] cs1].
  destruct a2 as [msgs2 proc2 inp2 fb2 [st2 loc2 ct2 mt2 ac2 ts2] cs2].
  unfold erase_app, erase_game in Ha; simpl in Ha.
  injection Ha as Hmsgs ? ? ? ? ? ? ? Hac ? ?. subst.
  assert (Hch : match ac1, ac2 with
                | Some c1, Some c2 => erase_turn c1 = erase_turn c2
                | None, None => True
                | _, _ => False
                end).
  { destruct ac1, ac2; simpl in Hac; try discriminate; [congruence | exact I]. }
  clear Hac.
  destruct ac1 as [[n1 ty1 q1 sc1 qu1 op1 ca1 ex1 go1]|],
           ac2 as [[n2 ty2 q2 sc2 qu2 op2 ca2 ex2 go2]|]; try contradiction.
  - unfold erase_turn in Hch; simpl in Hch.
    injection Hch as -> -> -> -> -> -> -> ->.
    destruct e1, e2; simpl in He; try contradiction.
    + subst. variant_run.
    + destruct He as [-> ->]. variant_run.
    + destruct He as (-> & Hv & -> & ->).
      destruct (outcome_variant_cases _ _ Hv)
        as [(r1 & r2 & -> & -> & Hturn & Hchunks) | (e & -> & ->)];
        variant_run.
  - destruct e1, e2; simpl in He; try contradiction.
    + subst. variant_run.
    + destruct He as [-> ->]. variant_run.
    + destruct He as (-> & Hv & -> & ->). variant_run.
Qed.

Lemma mounted_variant (m1 m2 : Mount) :
  mount_variant JSON_parse m1 m2 ->
  erase_world (mounted JSON_parse m1) = erase_world (mounted JSON_parse m2).
Proof.
  destruct m1 as [c1 r1 s1], m2 as [c2 r2 s2].
  unfold mount_variant; simpl. intros (-> & Hv & ->).
  destruct (outcome_variant_cases _ _ Hv)
    as [(x1 & x2 & -> & -> & Hturn & Hchunks) | (e & -> & ->)];
    unfold mounted, settle, erase_world; unfold_act; simpl;
    destruct c2; simpl;
    unfold erase_app, erase_game, erase_message, erase_turn in *; simpl in *;
    congruence.
Qed.

Lemma fold_dispatch_variant (ev1 ev2 : list Event) :
  Forall2 (event_variant JSON_parse) ev1 ev2 ->
  forall w1 w2, erase_world w1 = erase_world w2 ->
    erase_world (fold_left (fun w e => dispatch JSON_parse e w) ev1 w1)
    = erase_world (fold_left (fun w e => dispatch JSON_parse e w) ev2 w2).
Proof.
  induction 1 as [|e1 e2 ev1 ev2 He _ IH]; intros w1 w2 Hw; simpl.
  - exact Hw.
  - apply IH. apply dispatch_variant; assumption.
Qed.

Lemma requests_erase (t : list Obs) : requests (map erase_obs t) = requests t.
Proof.
  induction t as [|o t IH]; simpl; [reflexivity|].
  destruct o; simpl; rewrite IH; reflexivity.
Qed.

Lemma statuses_erase (t : list Obs) :
  map (fun a => status (gameState a)) (shown_states (map erase_obs t))
  = map (fun a => status (gameState a)) (shown_states t).
Proof.
  induction t as [|o t IH]; simpl; [reflexivity|].
  destruct o; simpl; rewrite IH; reflexivity.
Qed.

(** The status becomes finished only through a correct choice made when
    the turn index has reached [maxTurns]. *)
Lemma finished_only_at_max (e : Event) (a : App) (t : list Obs) :
  status (gameState a) <> status_finished ->
  status (gameState (fst (dispatch JSON_parse e (a, t)))) = status_finished ->
  maxTurns (gameState a) <= currentTurn (gameState a)
  /\ exists challenge replied userStamp modelStamp,
       activeChallenge (gameState a) = Some challenge
       /\ e = SelectOption (correctAnswer challenge) replied userStamp modelStamp.
Proof.
  intros Hnot. unfold dispatch, settle, handler; destruct e; unfold_act; simpl;
    split_tests; try congruence.
  intros _. split; [assumption|].
  apply strict_eq_true_iff in Hsel. subst.
  eexists; eexists; eexists; eexists; split; reflexivity.
Qed.

(** C10. The controller never reads the end-of-game flag.  Two sessions
    whose environments agree except for the flag of the challenges the
    service delivers go through the same states, flag apart, and issue
    the same requests; in particular they show the same status at every
    step.  The status becomes finished only when a correct choice is made
    with the turn index at [maxTurns] or above. *)
Theorem end_of_game_flag_is_never_read
    (m1 m2 : Mount) (ev1 ev2 : list Event) :
  mount_variant JSON_parse m1 m2 ->
  Forall2 (event_variant JSON_parse) ev1 ev2 ->
  erase_world (run JSON_parse m1 ev1) = erase_world (run JSON_parse m2 ev2)
  /\ requests (snd (run JSON_parse m1 ev1))
     = requests (snd (run JSON_parse m2 ev2))
  /\ map (fun a => status (gameState a))
         (shown_states (snd (run JSON_parse m1 ev1)))
     = map (fun a => status (gameState a))
           (shown_states (snd (run JSON_parse m2 ev2)))
  /\ (forall e a t,
        status (gameState a) <> status_finished ->
        status (gameState (fst (dispatch JSON_parse e (a, t))))
        = status_finished ->
        maxTurns (gameState a) <= currentTurn (gameState a)).
Proof.
  intros Hm Hev.
  assert (H : erase_world (run JSON_parse m1 ev1)
              = erase_world (run JSON_parse m2 ev2)).
  { unfold run. apply fold_dispatch_variant; [exact Hev|].
    apply mounted_variant; exact Hm. }
  split; [exact H|].
  pose proof (f_equal snd H) as Ht. unfold erase_world in Ht; simpl in Ht.
  split; [|split].
  - rewrite <- (requests_erase (snd (run JSON_parse m1 ev1))), Ht.
    apply requests_erase.
  - rewrite <- (statuses_erase (snd (run JSON_parse m1 ev1))), Ht.
    apply statuses_erase.
  - intros e a t Hnot Hfin.
    exact (proj1 (finished_only_at_max e a t Hnot Hfin)).
Qed.

End Properties.

(* ================================================================== *)
(** * The properties on the concrete session *)
(* ================================================================== *)

Import Scenario.

Example number_to_string_10 : number_to_string 10 = js "10".
Proof. reflexivity. Qed.

Example replace_fences_block :
  replace_fences (fenced (js "{library}")) = js "{library}".
Proof. reflexivity. Qed.

Example replace_fences_twice_tagged :
  replace_fences (js "```json```json" ++ [newline] ++ js "x") = js "x".
Proof. reflexivity. Qed.

Example trim_both_ends : trim (js "  a b  ") = js "a b".
Proof. reflexivity. Qed.

(** The walk of the first turn: wrong choice, then the right one, and the
    second turn is loaded in its concept phase. *)
Example first_turn_walk :
  let a := final (run parse good_mount next_turn_won) in
  status (gameState a) = status_playing
  /\ currentTurn (gameState a) = 2
  /\ turnStep (gameState a) = concept
  /\ activeChallenge (gameState a) = Some library_turn
  /\ List.length (messages a) = 5%nat.
Proof. vm_compute. repeat split; reflexivity. Qed.

(** A failed initial load: error status, nothing in the history, and the
    requests of the load only. *)
Example failed_load_walk :
  let w := mounted parse failed_mount in
  status (gameState (final w)) = status_error
  /\ activeChallenge (gameState (final w)) = None
  /\ messages (final w) = []
  /\ requests (snd w)
     = [ChatsCreate; ChatSendMessage (js "START_GAME_MIZZOU_EDITION")].
Proof. vm_compute. repeat split; reflexivity. Qed.

Lemma blank_submission_is_ignored_witness :
  whitespace_only (englishInput at_concept_blank)
  /\ handleEnglishSubmit (answers "Fine.") (stamp 1) (at_concept_blank, [])
     = (tt, (at_concept_blank, [])).
Proof.
  assert (H : whitespace_only (englishInput at_concept_blank))
    by (repeat constructor).
  split; [exact H | apply blank_submission_is_ignored; exact H].
Defined.

Lemma at_grammar_active : active_grammar at_grammar bridged_turn.
Proof. vm_compute. repeat split; reflexivity. Defined.

Lemma at_last_grammar_active : active_grammar at_last_grammar bridged_turn.
Proof. vm_compute. repeat split; reflexivity. Defined.


Lemma at_grammar_reachable : reachable parse at_grammar.
Proof. exists good_mount, to_grammar. reflexivity. Defined.

Lemma wrong_choice_keeps_turn_witness :
  active_grammar at_grammar bridged_turn
  /\ js "Se busca" <> correctAnswer bridged_turn
  /\ gameState
       (fst (snd (handleOptionSelect parse (js "Se busca") unavailable
                    (stamp 2) (stamp 3) (at_grammar, []))))
     = gameState at_grammar.
Proof.
  assert (H : js "Se busca" <> correctAnswer bridged_turn)
    by (vm_compute; discriminate).
  split; [exact at_grammar_active | split; [exact H|]].
  exact (proj1 (wrong_choice_keeps_turn parse (js "Se busca") unavailable
                  (stamp 2) (stamp 3) at_grammar [] bridged_turn
                  at_grammar_active H)).
Defined.

Lemma correct_choice_on_last_turn_finishes_witness :
  active_grammar at_last_grammar bridged_turn
  /\ js "Se exige" = correctAnswer bridged_turn
  /\ currentTurn (gameState at_last_grammar)
     >= maxTurns (gameState at_last_grammar)
  /\ status
       (gameState
          (fst (snd (handleOptionSelect parse (js "Se exige")
                       (answers "{library}") (stamp 2) (stamp 3)
                       (at_last_grammar, [])))))
     = status_finished.
Proof.
  assert (H : currentTurn (gameState at_last_grammar)
              >= maxTurns (gameState at_last_grammar))
    by (vm_compute; discriminate).
  split; [exact at_last_grammar_active | split; [reflexivity | split; [exact H|]]].
  exact (proj1 (correct_choice_on_last_turn_finishes parse (js "Se exige")
                  (answers "{library}") (stamp 2) (stamp 3) at_last_grammar
                  [] bridged_turn at_last_grammar_active eq_refl H)).
Defined.




Lemma failed_load_is_terminal_witness :
  initial_load_throws failed_mount
  /\ status (gameState (final (mounted parse failed_mount))) = status_error
  /\ requests (snd (run parse failed_mount next_turn_won))
     = requests (snd (mounted parse failed_mount)).
Proof.
  assert (H : initial_load_throws failed_mount) by (right; exact I).
  destruct (failed_load_is_terminal parse failed_mount H)
    as (Hstatus & _ & _ & Hlater).
  split; [exact H | split; [exact Hstatus|]].
  exact (proj2 (proj2 (Hlater next_turn_won))).
Defined.

Lemma end_of_game_flag_is_never_read_witness :
  mount_variant parse good_mount good_mount_over
  /\ Forall2 (event_variant parse) next_turn_won next_turn_won_over
  /\ erase_world (run parse good_mount next_turn_won)
     = erase_world (run parse good_mount_over next_turn_won_over).
Proof.
  assert (Hm : mount_variant parse good_mount good_mount_over)
    by (vm_compute; repeat split; reflexivity).
  assert (Hev : Forall2 (event_variant parse) next_turn_won next_turn_won_over)
    by (repeat constructor; vm_compute; repeat split; reflexivity).
  split; [exact Hm | split; [exact Hev|]].
  exact (proj1 (end_of_game_flag_is_never_read parse good_mount
                  good_mount_over next_turn_won next_turn_won_over Hm Hev)).
Defined.



(* ================================================================== *)
(** * Further properties of sessions *)
(* ================================================================== *)

Section FurtherProperties.

Variable JSON_parse : jsstring -> option GameTurnData.


Lemma suspended_states_app (t u : list Obs) :
  suspended_states (t ++ u) = suspended_states t ++ suspended_states u.
Proof.
  induction t as [|o t IH]; simpl; [reflexivity|].
  destruct o; simpl; rewrite IH; reflexivity.
Qed.

(** A handler does not read the trace: it only appends to it. *)
Lemma dispatch_appends (e : Event) (a : App) (t : list Obs) :
  dispatch JSON_parse e (a, t)
  = (fst (dispatch JSON_parse e (a, [])), t ++ snd (dispatch JSON_parse e (a, []))).
Proof.
  unfold dispatch, settle, handler; destruct e; unfold_act; simpl;
    split_tests; rewrite <- ?app_assoc; reflexivity.
Qed.

Lemma run_snoc (m : Mount) (events : list Event) (e : Event) :
  run JSON_parse m (events ++ [e]) = dispatch JSON_parse e (run JSON_parse m events).
Proof. unfold run. rewrite fold_left_app. reflexivity. Qed.

Lemma dispatch_final_shown (e : Event) (a : App) :
  exists before, news_of JSON_parse e a = before ++ [fst (dispatch JSON_parse e (a, []))].
Proof.
  unfold news_of, dispatch, settle.
  exists (shown_states (snd (snd (handler JSON_parse e (a, []))))).
  simpl. rewrite shown_states_app. reflexivity.
Qed.

Lemma run_step (m : Mount) (events : list Event) (e : Event) :
  let a := fst (run JSON_parse m events) in
  fst (run JSON_parse m (events ++ [e])) = fst (dispatch JSON_parse e (a, []))
  /\ shown_states (snd (run JSON_parse m (events ++ [e])))
     = shown_states (snd (run JSON_parse m events)) ++ news_of JSON_parse e a
  /\ suspended_states (snd (run JSON_parse m (events ++ [e])))
     = suspended_states (snd (run JSON_parse m events)) ++ suspensions_of JSON_parse e a
  /\ requests (snd (run JSON_parse m (events ++ [e])))
     = requests (snd (run JSON_parse m events)) ++ requests_of JSON_parse e a.
Proof.
  cbv zeta. rewrite run_snoc.
  destruct (run JSON_parse m events) as [a t]. rewrite dispatch_appends.
  cbn [fst snd].
  rewrite shown_states_app, suspended_states_app, requests_app.
  repeat split; reflexivity.
Qed.

(** Induction over a session: a property of states that the mount effect
    establishes and every event keeps, given the session invariant,
    holds of every state shown. *)
Lemma session_invariant (P : App -> Prop) :
  (forall m, Forall P (shown_states (snd (mounted JSON_parse m)))) ->
  (forall e a, session_inv a -> P a -> Forall P (news_of JSON_parse e a)) ->
  forall m events,
    Forall P (shown_states (snd (run JSON_parse m events))) /\ P (fst (run JSON_parse m events)).
Proof.
  intros Hmount Hstep m events.
  induction events as [|e events IH] using rev_ind.
  - split; [exact (Hmount m)|].
    pose proof (Hmount m) as H. rewrite Forall_forall in H. apply H.
    exact (proj2 (world_inv_final _ (proj1 (run_inv JSON_parse m [])))).
  - destruct IH as [Hall Hlast].
    destruct (run_step m events e) as (Hfst & Hshown & _ & _).
    pose proof (proj1 (world_inv_final _ (proj1 (run_inv JSON_parse m events))))
      as Hinv.
    pose proof (Hstep e _ Hinv Hlast) as Hnews.
    split.
    + rewrite Hshown. apply Forall_app; split; assumption.
    + rewrite Hfst. destruct (dispatch_final_shown e (fst (run JSON_parse m events)))
        as [before Hb].
      rewrite Hb in Hnews. apply Forall_app in Hnews.
      destruct Hnews as [_ Hl]. inversion Hl; assumption.
Qed.


Lemma last_cons_default (b : App) (l : list App) (d : App) :
  last (b :: l) d = last l b.
Proof.
  revert b d; induction l as [|c l IH]; intros b d; [reflexivity|].
  change (last (b :: c :: l) d) with (last (c :: l) d).
  rewrite (IH c d), (IH c b). reflexivity.
Qed.

Lemma linked_app (R : App -> App -> Prop) (l l' : list App) :
  forall from, linked R from l -> linked R (last l from) l' ->
    linked R from (l ++ l').
Proof.
  induction l as [|b l IH]; intros from; [simpl; auto|].
  intros [H1 H2] H'. split; [exact H1|].
  apply IH; [exact H2|]. rewrite <- last_cons_default with (d := from).
  exact H'.
Qed.

Lemma linked_In (R : App -> App -> Prop) :
  (forall a b c, R a b -> R b c -> R a c) ->
  forall l from b, linked R from l -> In b l -> R from b.
Proof.
  intros Htrans. induction l as [|c l IH]; simpl; intros from b; [tauto|].
  intros [H1 H2] [->|Hin]; [exact H1|].
  exact (Htrans _ _ _ H1 (IH _ _ H2 Hin)).
Qed.

Lemma linked_nth (R : App -> App -> Prop) :
  (forall a, R a a) ->
  (forall a b c, R a b -> R b c -> R a c) ->
  forall l from i j a b,
    linked R from l -> (i <= j)%nat ->
    nth_error (from :: l) i = Some a -> nth_error (from :: l) j = Some b ->
    R a b.
Proof.
  intros Hrefl Htrans. induction l as [|c l IH]; intros from i j a b Hl Hij Hi Hj.
  - destruct i as [|[|i]], j as [|[|j]]; simpl in *; try discriminate.
    injection Hi as <-; injection Hj as <-. apply Hrefl.
  - destruct Hl as [H1 H2]. destruct i as [|i], j as [|j].
    + simpl in *. injection Hi as <-; injection Hj as <-. apply Hrefl.
    + simpl in Hi. injection Hi as <-.
      change (nth_error (c :: l) j = Some b) in Hj.
      apply nth_error_In in Hj.
      apply (linked_In R Htrans (c :: l) from b); [split; assumption | exact Hj].
    + lia.
    + apply (IH c i j a b H2); [lia | exact Hi | exact Hj].
Qed.

(** Induction over a session for a relation between consecutive states. *)
Lemma session_linked (R : App -> App -> Prop) :
  (forall m, exists rest,
      shown_states (snd (mounted JSON_parse m)) = initial_app :: rest
      /\ linked R initial_app rest) ->
  (forall e a, session_inv a -> linked R a (news_of JSON_parse e a)) ->
  forall m events, exists rest,
    shown_states (snd (run JSON_parse m events)) = initial_app :: rest
    /\ linked R initial_app rest.
Proof.
  intros Hmount Hstep m events.
  induction events as [|e events IH] using rev_ind; [exact (Hmount m)|].
  destruct IH as (rest & Hshown & Hlinked).
  destruct (run_step m events e) as (_ & Hshown' & _ & _).
  destruct (proj1 (run_inv JSON_parse m events))
    as (rest' & Hshown2 & Hlast & _ & _).
  rewrite Hshown in Hshown2. injection Hshown2 as <-.
  pose proof (proj1 (world_inv_final _ (proj1 (run_inv JSON_parse m events))))
    as Hinv.
  exists (rest ++ news_of JSON_parse e (fst (run JSON_parse m events))).
  split; [rewrite Hshown', Hshown; reflexivity|].
  apply linked_app; [exact Hlinked|]. rewrite Hlast. apply Hstep. exact Hinv.
Qed.

Lemma history_extends_refl (a : App) : history_extends a a.
Proof. extend_history. Qed.

Lemma history_extends_trans (a b c : App) :
  history_extends a b -> history_extends b c -> history_extends a c.
Proof.
  intros [m1 H1] [m2 H2]. exists (m1 ++ m2).
  rewrite H2, H1, app_assoc. reflexivity.
Qed.

Lemma dispatch_extends_history (e : Event) (a : App) :
  linked history_extends a (news_of JSON_parse e a).
Proof.
  unfold news_of, dispatch, settle, handler; destruct e; unfold_act; simpl;
    split_tests; repeat split; extend_history.
Qed.

Lemma mounted_extends_history (m : Mount) :
  exists rest,
    shown_states (snd (mounted JSON_parse m)) = initial_app :: rest
    /\ linked history_extends initial_app rest.
Proof.
  destruct m as [created replied stamp].
  unfold mounted, settle; unfold_act; simpl.
  destruct created, replied; simpl;
    (eexists; split; [reflexivity|]); simpl; repeat split; extend_history.
Qed.

(** X1. The chat history is append-only: along every session, the
    history of a state shown earlier is a prefix of the history of any
    state shown later. *)
Theorem history_is_append_only (m : Mount) (events : list Event) :
  forall i j a b,
    (i <= j)%nat ->
    nth_error (shown_states (snd (run JSON_parse m events))) i = Some a ->
    nth_error (shown_states (snd (run JSON_parse m events))) j = Some b ->
    exists more, messages b = messages a ++ more.
Proof.
  intros i j a b Hij Hi Hj.
  destruct (session_linked history_extends mounted_extends_history
              (fun e a _ => dispatch_extends_history e a) m events)
    as (rest & Hshown & Hlinked).
  rewrite Hshown in Hi, Hj.
  exact (linked_nth history_extends history_extends_refl
           history_extends_trans rest initial_app i j a b Hlinked Hij Hi Hj).
Qed.



Lemma dispatch_settles (e : Event) (a : App) (t : list Obs) :
  settled a -> settled (fst (dispatch JSON_parse e (a, t))).
Proof.
  unfold settled. intros [Hp Hf].
  unfold dispatch, settle, handler; destruct e; unfold_act; simpl;
    split_guards; split; assumption || reflexivity || discriminate.
Qed.

Lemma mounted_settles (m : Mount) : settled (fst (mounted JSON_parse m)).
Proof.
  destruct m as [created replied stamp].
  unfold settled, mounted, settle; unfold_act; simpl.
  destruct created, replied; simpl; split; reflexivity.
Qed.

(** X2. Whenever a handler has run to its end, whatever the service
    answered, the component is not processing and shows no success
    banner: on the game screen the "Thinking..." indicator is off and the
    banner is absent in every reachable state. *)
Theorem idle_state_is_settled (a : App) :
  reachable JSON_parse a ->
  isProcessing a = false
  /\ forall layout,
       render_GameInterface a = GameScreen layout ->
       thinking layout = false /\ success_banner layout = None.
Proof.
  intros (m & events & ->).
  assert (H : settled (final (run JSON_parse m events))).
  { unfold final, run. generalize (mounted_settles m).
    generalize (mounted JSON_parse m). induction events as [|e events IH];
      intros w Hw; simpl; [exact Hw|].
    apply IH. destruct w as [a t]. apply dispatch_settles. exact Hw. }
  destruct H as [Hp Hf]. split; [exact Hp|].
  intros layout. unfold render_GameInterface.
  destruct (status (gameState (final (run JSON_parse m events))));
    try discriminate; intros Hl; injection Hl as <-; simpl; auto.
Qed.

Lemma dispatch_suspends_locked (e : Event) (a : App) :
  Forall (fun s => input_locked (render_GameInterface s))
         (suspensions_of JSON_parse e a).
Proof.
  unfold suspensions_of, dispatch, settle, handler; destruct e; unfold_act;
    simpl; split_guards; repeat (apply Forall_nil || apply Forall_cons);
    unfold input_locked, render_GameInterface; simpl;
    match goal with
    | |- context [status ?g] => destruct (status g); simpl; try exact I
    end;
    try reflexivity;
    match goal with
    | |- context [activeChallenge ?g] => destruct (activeChallenge g)
    end; reflexivity.
Qed.

Lemma locked_offers_nothing (s : Screen) (e : Event) :
  input_locked s -> ~ offers s e.
Proof.
  unfold input_locked, offers. destruct s as [| |layout]; auto.
  intros ->. auto.
Qed.

(** X3. While a handler is suspended (on the bridging request, on the
    pacing delay, on a next-turn request, or during the initial load) the
    screen offers no input: it is the loading screen, or the game screen
    without its interactive area. *)
Theorem suspended_screen_offers_no_input (m : Mount) (events : list Event) :
  forall s e,
    In s (suspended_states (snd (run JSON_parse m events))) ->
    input_locked (render_GameInterface s)
    /\ ~ offers (render_GameInterface s) e.
Proof.
  assert (H : Forall (fun s => input_locked (render_GameInterface s))
                (suspended_states (snd (run JSON_parse m events)))).
  { induction events as [|e events IH] using rev_ind.
    - destruct m as [created replied stamp].
      unfold run, mounted, settle; unfold_act; simpl.
      destruct created, replied; simpl; rewrite ?suspended_states_app; simpl;
        repeat constructor.
    - destruct (run_step m events e) as (_ & _ & Hs & _). rewrite Hs.
      apply Forall_app; split; [exact IH | apply dispatch_suspends_locked]. }
  intros s e Hin. rewrite Forall_forall in H.
  split; [exact (H s Hin) | exact (locked_offers_nothing _ e (H s Hin))].
Qed.


(** The requests of one event: none, or the one request of its handler. *)
Lemma dispatch_requests (e : Event) (a : App) :
  requests_of JSON_parse e a = []
  \/ (exists generated stamp challenge,
        e = SubmitEnglish generated stamp
        /\ activeChallenge (gameState a) = Some challenge
        /\ requests_of JSON_parse e a
           = [ModelsGenerateContent
                (bridgePrompt (spanishConcept challenge) (englishInput a))])
  \/ (exists selected replied userStamp modelStamp,
        e = SelectOption selected replied userStamp modelStamp
        /\ requests_of JSON_parse e a
           = [ChatSendMessage
                (js "NEXT_TURN_"
                 ++ number_to_string (currentTurn (gameState a) + 1))]).
Proof.
  unfold requests_of, dispatch, settle, handler; destruct e; unfold_act; simpl;
    split_guards;
    first [ left; reflexivity
          | right; left; do 3 eexists; repeat split; reflexivity
          | right; right; do 4 eexists; split; reflexivity ].
Qed.

(** X4. The chat session is created once, by the mount effect, as the
    first request of a session, and never again; after it the mount
    effect sends at most the start message, and every event issues at
    most one request. *)
Theorem session_is_created_once (m : Mount) (events : list Event) :
  exists rest,
    requests (snd (run JSON_parse m events)) = ChatsCreate :: rest
    /\ ~ In ChatsCreate rest
    /\ (List.length rest <= 1 + List.length events)%nat.
Proof.
  induction events as [|e events IH] using rev_ind.
  - destruct m as [created replied stamp].
    unfold run, mounted, settle; unfold_act; simpl.
    destruct created, replied; simpl; eexists;
      (split; [reflexivity|]); simpl; split; try lia;
      intuition discriminate.
  - destruct IH as (rest & Hreq & Hnot & Hlen).
    destruct (run_step m events e) as (_ & _ & _ & Hr). rewrite Hr, Hreq.
    exists (rest ++ requests_of JSON_parse e (fst (run JSON_parse m events))).
    split; [reflexivity|]. rewrite !length_app. simpl.
    destruct (dispatch_requests e (fst (run JSON_parse m events)))
      as [H | [(g & s & c & _ & _ & H) | (o & r & u & ms & _ & H)]];
      rewrite H; simpl; (split; [|lia]);
      rewrite in_app_iff; simpl; intuition discriminate.
Qed.

Lemma session_finish_inv (m : Mount) (events : list Event) :
  finish_inv (fst (run JSON_parse m events)).
Proof.
  apply (session_invariant finish_inv).
  - clear. intros [created replied stamp].
    unfold mounted, settle; unfold_act; simpl.
    destruct created, replied; simpl; repeat constructor; simpl;
      intros; discriminate.
  - clear. intros e a Hinv [Hmax Hfin].
    unfold news_of, dispatch, settle, handler; destruct e; unfold_act; simpl;
      split_guards; repeat (apply Forall_nil || apply Forall_cons);
      unfold finish_inv; simpl; (split; [exact Hmax|]); try exact Hfin;
      try (rewrite Hmax in *; destruct Hinv as [[_ Hle] Hplay];
           rewrite Hmax in Hle; intros _; lia).
    all: intros Hf; destruct Hinv as [_ Hplay];
      destruct Hplay as [Hplay _]; [congruence|]; congruence.
Qed.

(** X5. A finished game is terminal and stands at the last turn: once an
    event has left the status at finished, the turn index equals
    [maxTurns], which is [TOTAL_TURNS], and whatever events follow, the
    game state and the chat history stay as they are and no request is
    issued. *)
Theorem finished_game_is_terminal (m : Mount) (events more : list Event) :
  status (gameState (final (run JSON_parse m events))) = status_finished ->
  currentTurn (gameState (final (run JSON_parse m events))) = TOTAL_TURNS
  /\ maxTurns (gameState (final (run JSON_parse m events))) = TOTAL_TURNS
  /\ gameState (final (run JSON_parse m (events ++ more)))
     = gameState (final (run JSON_parse m events))
  /\ messages (final (run JSON_parse m (events ++ more)))
     = messages (final (run JSON_parse m events))
  /\ requests (snd (run JSON_parse m (events ++ more)))
     = requests (snd (run JSON_parse m events)).
Proof.
  intros Hfin. unfold final in *.
  destruct (session_finish_inv m events) as [Hmax Hturn].
  split; [exact (Hturn Hfin) | split; [exact Hmax|]].
  assert (Hnone : activeChallenge (gameState (fst (run JSON_parse m events)))
                  = None).
  { destruct (proj1 (world_inv_final _ (proj1 (run_inv JSON_parse m events))))
      as [_ Hactive].
    destruct (activeChallenge (gameState (fst (run JSON_parse m events))));
      [|reflexivity].
    destruct Hactive as [Hplay _]; [discriminate | congruence]. }
  pose proof (no_challenge_forever JSON_parse more _ Hnone) as H.
  cbv zeta in H. unfold run at 1 3 5. rewrite fold_left_app. exact H.
Qed.


(** X6. A challenge whose correct answer is not among its choices cannot
    be completed from the screen: while it is active, any sequence of
    clicks on the choices shown leaves the game state as it is, issues no
    request, and only lengthens the history by one entry per click. *)
Theorem missing_answer_blocks_the_turn
    (challenge : GameTurnData) (clicks : list Event) :
  ~ In (correctAnswer challenge) (options challenge) ->
  Forall (fun e => exists o replied userStamp modelStamp,
                     e = SelectOption o replied userStamp modelStamp
                     /\ In o (options challenge)) clicks ->
  forall a t,
    accepting a challenge ->
    let w := fold_left (fun w e => dispatch JSON_parse e w) clicks (a, t) in
    gameState (fst w) = gameState a
    /\ requests (snd w) = requests t
    /\ List.length (messages (fst w))
       = (List.length (messages a) + List.length clicks)%nat.
Proof.
  intros Hmissing Hclicks. induction Hclicks as [|e clicks He _ IH];
    intros a t Hacc; cbv zeta; cbn [fold_left fst snd].
  - repeat split; simpl; lia.
  - destruct He as (o & replied & us & ms & -> & Ho).
    assert (Hwrong : o <> correctAnswer challenge) by congruence.
    destruct Hacc as [Hproc Hactive].
    assert (Hstep : let w1 := dispatch JSON_parse (SelectOption o replied us ms)
                                (a, t) in
                    gameState (fst w1) = gameState a
                    /\ isProcessing (fst w1) = false
                    /\ requests (snd w1) = requests t
                    /\ List.length (messages (fst w1))
                       = S (List.length (messages a))).
    { apply strict_eq_false_iff in Hwrong.
      unfold dispatch, settle, handler; unfold_act; simpl.
      rewrite Hproc, Hactive; simpl. rewrite Hwrong; simpl.
      rewrite requests_app, length_app; simpl. rewrite app_nil_r.
      repeat split; try assumption; lia. }
    cbv zeta in Hstep. destruct Hstep as (Hg & Hp & Hr & Hl).
    destruct (dispatch JSON_parse (SelectOption o replied us ms) (a, t))
      as [a1 t1] eqn:E1. cbn [fst snd] in *.
    assert (Hacc1 : accepting a1 challenge)
      by (split; [exact Hp | rewrite Hg; exact Hactive]).
    pose proof (IH a1 t1 Hacc1) as H. cbv zeta in H.
    destruct H as (Hg' & Hr' & Hl').
    rewrite Hg', Hr', Hl', Hg, Hr, Hl. repeat split; simpl; lia.
Qed.



Lemma last_delivered_user (msgs : list ChatMessage) (m : ChatMessage) :
  role m = USER -> last_delivered (msgs ++ [m]) = last_delivered msgs.
Proof.
  intros Hr. unfold last_delivered. rewrite rev_app_distr. simpl.
  unfold is_model at 1. rewrite Hr. reflexivity.
Qed.

Lemma last_delivered_model (msgs : list ChatMessage) (m : ChatMessage) :
  role m = MODEL -> last_delivered (msgs ++ [m]) = structuredContent m.
Proof.
  intros Hr. unfold last_delivered. rewrite rev_app_distr. simpl.
  unfold is_model at 1. rewrite Hr. reflexivity.
Qed.

Lemma set_spanishConcept_twice (x y : jsstring) (c d : GameTurnData) :
  c = set_spanishConcept x d ->
  set_spanishConcept y c = set_spanishConcept y d.
Proof. intros ->. destruct d; reflexivity. Qed.

Lemma spanishConcept_set (x : jsstring) (c : GameTurnData) :
  spanishConcept (set_spanishConcept x c) = x.
Proof. reflexivity. Qed.

Lemma model_count_user (msgs : list ChatMessage) (m : ChatMessage) :
  role m = USER ->
  List.length (filter is_model (msgs ++ [m]))
  = List.length (filter is_model msgs).
Proof.
  intros Hr. rewrite filter_app, length_app. simpl.
  unfold is_model at 2. rewrite Hr. simpl. lia.
Qed.

Lemma model_count_model (msgs : list ChatMessage) (m : ChatMessage) :
  role m = MODEL ->
  List.length (filter is_model (msgs ++ [m]))
  = S (List.length (filter is_model msgs)).
Proof.
  intros Hr. rewrite filter_app, length_app. simpl.
  unfold is_model at 2. rewrite Hr. simpl. lia.
Qed.

Lemma dispatch_presents_active (e : Event) (a : App) :
  presents_active a -> Forall presents_active (news_of JSON_parse e a).
Proof.
  intros Hp.
  unfold news_of, dispatch, settle, handler; destruct e; unfold_act; simpl;
    split_guards; repeat (apply Forall_nil || apply Forall_cons);
    unfold presents_active in *; simpl; intros ch Hch;
    try discriminate; try (apply Hp; assumption).
  all: repeat first
         [ rewrite last_delivered_model by reflexivity
         | rewrite last_delivered_user by reflexivity
         | rewrite model_count_model by reflexivity
         | rewrite model_count_user by reflexivity ].
  all: try (apply Hp; exact Hch).
  all: injection Hch as <-.
  all: destruct (Hp _ Hactive) as ((d & Hd & Hc) & Hn).
  all: first
         [ split; [exists d; split; [exact Hd | exact Hc] | exact Hn]
         | split; [exists d; split; [exact Hd|] | exact Hn];
           rewrite spanishConcept_set;
           apply (set_spanishConcept_twice _ _ _ _ Hc)
         | split; [eexists; split; [reflexivity|];
                   rewrite set_spanishConcept_same; reflexivity
                  | rewrite Nat2Z.inj_succ; lia] ].
Qed.

Lemma mounted_presents_active (m : Mount) :
  Forall presents_active (shown_states (snd (mounted JSON_parse m))).
Proof.
  destruct m as [created replied stamp].
  unfold mounted, settle; unfold_act; simpl.
  destruct created, replied; simpl;
    repeat (apply Forall_nil || apply Forall_cons);
    unfold presents_active; simpl; intros ch Hch; try discriminate.
  injection Hch as <-. split; [|reflexivity].
  eexists; split; [reflexivity|]. rewrite set_spanishConcept_same. reflexivity.
Qed.

(** X8. The history always presents the active challenge: in every state
    shown during a session that has an active challenge, the last MODEL
    entry of the history carries that challenge, except that the bridge
    may have rewritten its [spanishConcept]; and the number of MODEL
    entries equals the turn index. *)
Theorem history_presents_active_challenge
    (m : Mount) (events : list Event) (a : App) (challenge : GameTurnData) :
  In a (shown_states (snd (run JSON_parse m events))) ->
  activeChallenge (gameState a) = Some challenge ->
  (exists delivered,
      last_delivered (messages a) = Some delivered
      /\ challenge = set_spanishConcept (spanishConcept challenge) delivered)
  /\ Z.of_nat (List.length (filter is_model (messages a)))
     = currentTurn (gameState a).
Proof.
  intros Hin.
  pose proof (proj1 (session_invariant presents_active mounted_presents_active
                       (fun e a _ => dispatch_presents_active e a) m events))
    as Hall.
  rewrite Forall_forall in Hall. exact (Hall a Hin challenge).
Qed.




End FurtherProperties.

(* ================================================================== *)
(** * Properties of the views *)
(* ================================================================== *)

Lemma own_property_In (obj : list (jsstring * jsstring)) (key v : jsstring) :
  own_property obj key = Some v -> In (key, v) obj.
Proof.
  induction obj as [|[k w] obj IH]; simpl; [discriminate|].
  destruct (strict_eq key k) eqn:E.
  - apply strict_eq_true_iff in E. intros H; injection H as ->.
    left; congruence.
  - intros H; right; exact (IH H).
Qed.

Lemma location_images_truthy (key v : jsstring) :
  In (key, v) location_images -> truthy v = true.
Proof.
  unfold location_images. simpl.
  intros H; repeat (destruct H as [H|H]; [injection H as _ <-; reflexivity|]).
  contradiction.
Qed.

(** X9. [getLocationImage] always yields a picture for a keyword that is
    not a property name of [Object.prototype]: the picture listed for the
    keyword when there is one, and otherwise the picture of "outdoors";
    it is never [undefined] and never the empty string. *)
Theorem location_image_falls_back_to_outdoors (type : jsstring) :
  ~ In type object_prototype_members ->
  exists url,
    getLocationImage type = Own url
    /\ url <> []
    /\ (forall listed, own_property location_images type = Some listed ->
          url = listed)
    /\ (own_property location_images type = None ->
        getLocationImage type = getLocationImage (js "outdoors")).
Proof.
  intros Hplain. unfold getLocationImage, member.
  destruct (own_property location_images type) as [v|] eqn:E.
  - pose proof (location_images_truthy _ _ (own_property_In _ _ _ E)) as Ht.
    simpl. rewrite Ht. exists v. repeat split.
    + intros ->; discriminate.
    + intros listed H; injection H as <-; reflexivity.
    + discriminate.
  - assert (Hno : existsb (strict_eq type) object_prototype_members = false).
    { destruct (existsb (strict_eq type) object_prototype_members) eqn:Ex;
        [|reflexivity].
      apply existsb_exists in Ex. destruct Ex as (x & Hin & Hx).
      apply strict_eq_true_iff in Hx. subst x. contradiction. }
    rewrite Hno. simpl. eexists. split; [reflexivity|].
    repeat split; try discriminate; try reflexivity.
Qed.

(** X18. A keyword that is a property name of [Object.prototype] gets no
    picture: the lookup finds the inherited member, which is truthy, so
    the fallback to "outdoors" is not taken. *)
Theorem inherited_name_is_not_a_picture (type : jsstring) :
  In type object_prototype_members ->
  getLocationImage type = Inherited type.
Proof.
  unfold object_prototype_members. simpl In.
  intros H.
  repeat (destruct H as [<-|H]; [vm_compute; reflexivity|]).
  contradiction.
Qed.

Lemma find_first {A} (p : A -> bool) (l : list A) :
  match find p l with
  | Some x => exists before after,
                l = before ++ x :: after
                /\ p x = true
                /\ Forall (fun y => p y = false) before
  | None => Forall (fun y => p y = false) l
  end.
Proof.
  induction l as [|y l IH]; simpl; [constructor|].
  destruct (p y) eqn:E.
  - exists [], l. repeat split; [exact E | constructor].
  - destruct (find p l) as [x|].
    + destruct IH as (before & after & -> & Hx & Hb).
      exists (y :: before), after. repeat split; [exact Hx|].
      constructor; assumption.
    + constructor; assumption.
Qed.

(** X10. The map link of a turn is the address of the first grounding
    chunk that has a [maps] part with a non-empty [uri]; chunks before it
    have none, [web] parts are never linked, and a message without such a
    chunk, or without chunks, has no link. *)
Theorem map_link_is_first_maps_uri (message : ChatMessage) :
  match primaryMapLink message with
  | Some uri =>
      uri <> []
      /\ exists chunks before chunk place after,
           groundingChunks message = Some chunks
           /\ chunks = before ++ chunk :: after
           /\ maps chunk = Some place
           /\ maps_uri place = uri
           /\ Forall (fun c => option_truthy (chunk_maps_uri c) = false) before
  | None =>
      forall chunks,
        groundingChunks message = Some chunks ->
        Forall (fun c => option_truthy (chunk_maps_uri c) = false) chunks
  end.
Proof.
  unfold primaryMapLink.
  destruct (groundingChunks message) as [chunks|]; [|intros ? H; discriminate].
  pose proof (find_first (fun c => option_truthy (chunk_maps_uri c)) chunks) as H.
  destruct (find (fun c => option_truthy (chunk_maps_uri c)) chunks) as [c|].
  - destruct H as (before & after & -> & Hc & Hb).
    unfold chunk_maps_uri in *. destruct (maps c) as [place|] eqn:Em;
      [|discriminate].
    simpl in Hc. split.
    + intros E; rewrite E in Hc; discriminate.
    + exists (before ++ c :: after), before, c, place, after.
      repeat split; assumption.
  - intros chunks' Hc. injection Hc as <-. exact H.
Qed.

(* ================================================================== *)
(** * The screen and the handlers together *)
(* ================================================================== *)

Section ScreenProperties.

Variable JSON_parse : jsstring -> option GameTurnData.


(** X12. Every input that the screen offers is accepted by its handler.
    A click on a choice shown is recorded in the history; a submission
    from the concept form with a non-blank text (the button enabled)
    records the text as typed and moves the phase to grammar. *)
Theorem offered_input_is_accepted (a : App) (t : list Obs) (e : Event) :
  offers (render_GameInterface a) e ->
  let a' := fst (dispatch JSON_parse e (a, t)) in
  match e with
  | TypeEnglish value => englishInput a' = value
  | SubmitEnglish _ _ =>
      trim (englishInput a) <> [] ->
      turnStep (gameState a') = grammar
      /\ exists entry,
           messages a' = messages a ++ [entry]
           /\ role entry = USER
           /\ text entry = Some (englishInput a)
  | SelectOption chosen _ _ _ =>
      exists entry more,
        messages a' = messages a ++ entry :: more
        /\ role entry = USER
        /\ text entry = Some chosen
  end.
Proof.
  unfold offers, render_GameInterface.
  destruct (status (gameState a)); try contradiction; simpl;
    destruct (activeChallenge (gameState a)) as [challenge|] eqn:Hactive;
    try contradiction;
    destruct (isProcessing a) eqn:Hproc; try contradiction; simpl;
    destruct (turnStep (gameState a)); destruct e; try contradiction;
    intros Hoffer; cbv zeta;
    unfold dispatch, settle, handler; unfold_act; simpl;
    rewrite ?Hproc, ?Hactive; simpl.
  all: try reflexivity.
  all: try (intros Htext;
            destruct (trim (englishInput a)) eqn:E; [congruence|]; simpl;
            split_guards; rewrite ?Hactive; simpl;
            (split; [reflexivity|]); eexists; repeat split; reflexivity).
  all: split_guards; rewrite <- ?app_assoc; simpl;
    eexists; eexists; repeat split; reflexivity.
Qed.



Lemma filter_snoc_length (f : ChatMessage -> bool)
    (msgs : list ChatMessage) (m : ChatMessage) :
  List.length (filter f (msgs ++ [m]))
  = (List.length (filter f msgs) + (if f m then 1 else 0))%nat.
Proof.
  rewrite filter_app, length_app. simpl. destruct (f m); reflexivity.
Qed.

Lemma offered_event_keeps_progress (e : Event) (a : App) :
  turn_progress a ->
  offers (render_GameInterface a) e ->
  turn_progress (fst (dispatch JSON_parse e (a, []))).
Proof.
  intros Hp. unfold offers, render_GameInterface.
  destruct (status (gameState a)); try contradiction; simpl;
    destruct (activeChallenge (gameState a)) as [challenge|] eqn:Hactive;
    try contradiction;
    destruct (isProcessing a) eqn:Hproc; try contradiction; simpl;
    destruct (turnStep (gameState a)) eqn:Hstep; destruct e;
    try contradiction; intros _;
    (destruct Hp as [Hchoices Hanswers]; [rewrite Hactive; discriminate|]);
    rewrite Hstep in Hanswers;
    unfold dispatch, settle, handler; unfold_act; simpl;
    rewrite ?Hproc, ?Hactive; simpl;
    split_guards; rewrite ?Hactive; simpl;
    unfold turn_progress; simpl; rewrite ?Hactive, ?Hstep;
    intros Hsome; try congruence;
    rewrite ?filter_snoc_length; simpl;
    unfold is_correct_choice, is_choice, is_concept_answer in *; simpl;
    rewrite ?Hsel; simpl; lia.
Qed.

(** X14. In a session driven through the screen, whenever a challenge is
    active the history holds exactly one correct choice and one English
    answer for each completed turn, plus the English answer of the
    current turn once its phase is grammar: no turn is completed without
    its concept question having been answered. *)
Theorem screen_session_answers_every_turn (m : Mount) (events : list Event) :
  offered_along JSON_parse (fst (mounted JSON_parse m)) events ->
  let a := fst (run JSON_parse m events) in
  activeChallenge (gameState a) <> None ->
  Z.of_nat (List.length (filter is_correct_choice (messages a)))
  = currentTurn (gameState a) - 1
  /\ Z.of_nat (List.length (filter is_concept_answer (messages a)))
     = currentTurn (gameState a) - 1
       + match turnStep (gameState a) with grammar => 1 | concept => 0 end.
Proof.
  assert (Hmount : turn_progress (fst (mounted JSON_parse m))).
  { destruct m as [created replied stamp].
    unfold turn_progress, mounted, settle; unfold_act; simpl.
    destruct created, replied; simpl; intros H; try congruence.
    split; reflexivity. }
  unfold run. revert Hmount. generalize (mounted JSON_parse m).
  induction events as [|e events IH]; intros w Hw Hoffered; simpl.
  - exact Hw.
  - destruct Hoffered as [He Hrest]. destruct w as [a t].
    apply IH.
    + rewrite dispatch_appends. cbn [fst snd].
      apply offered_event_keeps_progress; assumption.
    + rewrite dispatch_appends. cbn [fst snd]. exact Hrest.
Qed.

Lemma offered_event_keeps_feedback (e : Event) (a : App) :
  feedback_explains a ->
  offers (render_GameInterface a) e ->
  feedback_explains (fst (dispatch JSON_parse e (a, []))).
Proof.
  intros Hf. unfold offers, render_GameInterface.
  destruct (status (gameState a)); try contradiction; simpl;
    destruct (activeChallenge (gameState a)) as [challenge|] eqn:Hactive;
    try contradiction;
    destruct (isProcessing a) eqn:Hproc; try contradiction; simpl;
    destruct (turnStep (gameState a)) eqn:Hstep; destruct e;
    try contradiction; intros _;
    unfold dispatch, settle, handler; unfold_act; simpl;
    rewrite ?Hproc, ?Hactive; simpl;
    split_guards; rewrite ?Hactive; simpl;
    unfold feedback_explains in *; simpl; rewrite ?Hactive, ?Hstep;
    intros fb Hfb; try discriminate;
    try (destruct (Hf fb Hfb) as [Hg _]; congruence).
  all: try (injection Hfb as <-; split; [reflexivity|];
            eexists; split; reflexivity).
  all: destruct (Hf fb Hfb) as (_ & ch & Hch & ->);
    injection Hch as <-; split; [reflexivity|];
    eexists; split; reflexivity.
Qed.

(** X19. In a session driven through the screen, the feedback left on
    screen is never stale: whenever a handler has finished and a feedback
    message remains, the phase is grammar and the message is the
    "Incorrect" notice carrying the explanation of the challenge that is
    active. *)
Theorem screen_session_feedback_is_current (m : Mount) (events : list Event) :
  offered_along JSON_parse (fst (mounted JSON_parse m)) events ->
  forall fb,
    feedbackMessage (fst (run JSON_parse m events)) = Some fb ->
    turnStep (gameState (fst (run JSON_parse m events))) = grammar
    /\ exists challenge,
         activeChallenge (gameState (fst (run JSON_parse m events)))
         = Some challenge
         /\ fb = {| fb_text := js "Incorrect. " ++ explanation challenge
                               ++ js " Try again!";
                    fb_type := fb_error |}.
Proof.
  assert (Hmount : feedback_explains (fst (mounted JSON_parse m))).
  { destruct m as [created replied stamp].
    unfold feedback_explains, mounted, settle; unfold_act; simpl.
    destruct created, replied; simpl; intros fb H; discriminate. }
  unfold run. revert Hmount. generalize (mounted JSON_parse m).
  induction events as [|e events IH]; intros w Hw Hoffered; simpl.
  - exact Hw.
  - destruct Hoffered as [He Hrest]. destruct w as [a t].
    apply IH.
    + rewrite dispatch_appends. cbn [fst snd].
      apply offered_event_keeps_feedback; assumption.
    + rewrite dispatch_appends. cbn [fst snd]. exact Hrest.
Qed.

End ScreenProperties.

(* ================================================================== *)
(** * Further properties of the service client *)
(* ================================================================== *)

Lemma trim_start_app_kept (s x : jsstring) :
  trim_start s <> [] -> trim_start (s ++ x) = trim_start s ++ x.
Proof.
  induction s as [|c s IH]; simpl; [congruence|].
  destruct (is_js_whitespace c); [exact IH | reflexivity].
Qed.

Lemma trim_start_app_blank (s x : jsstring) :
  trim_start s = [] -> trim_start (s ++ x) = trim_start x.
Proof.
  induction s as [|c s IH]; simpl; [reflexivity|].
  destruct (is_js_whitespace c); [exact IH | discriminate].
Qed.

Lemma trim_cons_newline (s : jsstring) : trim (newline :: s) = trim s.
Proof. reflexivity. Qed.

Lemma trim_snoc_newline (s : jsstring) : trim (s ++ [newline]) = trim s.
Proof.
  unfold trim, trim_end.
  destruct (trim_start s) as [|c u] eqn:E.
  - rewrite (trim_start_app_blank s [newline] E). reflexivity.
  - rewrite trim_start_app_kept by (rewrite E; discriminate).
    rewrite E, rev_app_distr. reflexivity.
Qed.

Lemma chomp_spec (s : jsstring) : chomp s = s \/ s = chomp s ++ [newline].
Proof.
  induction s as [|c t IH]; [left; reflexivity|].
  destruct t as [|d t].
  - simpl. destruct (N.eqb_spec c newline) as [->|]; [right | left];
      reflexivity.
  - change (chomp (c :: d :: t)) with (c :: chomp (d :: t)).
    destruct IH as [IH|IH].
    + left. rewrite IH. reflexivity.
    + right. rewrite IH at 1. reflexivity.
Qed.

Lemma trim_chomp (s : jsstring) : trim (chomp s) = trim s.
Proof.
  destruct (chomp_spec s) as [H|H]; [rewrite H; reflexivity|].
  rewrite H at 2. rewrite trim_snoc_newline. reflexivity.
Qed.

Lemma drop_prefix_other (pre s : jsstring) (p c : N) :
  p <> c -> drop_prefix (p :: pre) (c :: s) = None.
Proof.
  intros Hne. rewrite drop_prefix_cons.
  destruct (N.eqb_spec p c); [contradiction | reflexivity].
Qed.

(** At a code unit other than a backtick, the only match is a line break
    followed by a fence. *)
Lemma fence_match_length_plain (c : N) (s : jsstring) :
  c <> backtick ->
  fence_match_length (c :: s)
  = match drop_prefix newline_fence (c :: s) with
    | Some _ => 4%nat
    | None => 0%nat
    end.
Proof.
  intros Hc. unfold fence_match_length.
  change fence_json with (backtick :: backtick :: backtick :: js "json").
  rewrite (drop_prefix_other _ s backtick c) by congruence.
  replace (drop_prefix fence (c :: s)) with (@None jsstring);
    [reflexivity|].
  symmetry. apply drop_prefix_other. congruence.
Qed.

Lemma fence_match_length_tagged (c : N) (s : jsstring) :
  c <> newline -> fence_match_length (fence_json ++ c :: s) = 7%nat.
Proof.
  intros Hn. unfold fence_match_length.
  assert (E : drop_prefix fence_json (fence_json ++ c :: s) = Some (c :: s))
    by (apply (drop_prefix_app fence_json fence_json [] (c :: s));
        reflexivity).
  rewrite E. destruct (N.eqb_spec c newline); [contradiction | reflexivity].
Qed.

(** Before a closing fence without its line break, a payload free of
    backticks loses at most its final line break. *)
Lemma replace_fences_bare_closing (p : jsstring) :
  ~ In backtick p -> replace_fences (p ++ fence) = chomp p.
Proof.
  unfold replace_fences. induction p as [|c t IH]; intros Hp; [reflexivity|].
  assert (Hc : c <> backtick) by (intros ->; apply Hp; left; reflexivity).
  assert (Ht : ~ In backtick t) by (intros H; apply Hp; right; exact H).
  change ((c :: t) ++ fence) with (c :: (t ++ fence)).
  rewrite replace_fences_from_cons, (fence_match_length_plain c _ Hc).
  unfold newline_fence. rewrite drop_prefix_cons.
  destruct t as [|d t].
  - destruct (N.eqb_spec c newline) as [->|Hn]; [reflexivity|].
    assert (E1 : N.eqb newline c = false) by (apply N.eqb_neq; congruence).
    assert (E2 : N.eqb c newline = false) by (apply N.eqb_neq; congruence).
    rewrite E1. unfold chomp. rewrite E2. reflexivity.
  - assert (Hd : d <> backtick)
      by (intros ->; apply Ht; left; reflexivity).
    change ((d :: t) ++ fence) with (d :: (t ++ fence)).
    unfold fence at 1. rewrite (drop_prefix_other _ _ backtick d) by congruence.
    change (d :: (t ++ fence)) with ((d :: t) ++ fence).
    replace (if N.eqb newline c then @None jsstring else None)
      with (@None jsstring) by (destruct (N.eqb newline c); reflexivity).
    rewrite (IH Ht). reflexivity.
Qed.

Lemma replace_fences_any_closing (broken : bool) (p : jsstring) :
  ~ In backtick p ->
  trim (replace_fences (p ++ closing_fence broken)) = trim p.
Proof.
  intros Hp. destruct broken; unfold closing_fence.
  - change ([newline] ++ fence) with newline_fence.
    unfold replace_fences.
    rewrite replace_fences_from_closing by lia.
    change (replace_fences_from 0 p) with (replace_fences p).
    rewrite (replace_fences_no_backtick p Hp). reflexivity.
  - simpl app at 2. rewrite (replace_fences_bare_closing p Hp).
    apply trim_chomp.
Qed.

(** X15. Whatever its fences, a fenced payload is cleaned to the payload:
    for a payload free of backticks, put between an opening fence (with
    or without the language tag, with or without a line break after it)
    and a closing fence (with or without a line break before it), the
    text handed to the parser is the payload trimmed, which is what the
    bare payload gives.  The one exception is an untagged opening fence
    directly followed by a payload that begins with the letters of the
    tag. *)
Theorem any_fence_cleans_to_payload
    (tagged broken closing : bool) (payload : jsstring) :
  ~ In backtick payload ->
  (tagged = false -> broken = false ->
   drop_prefix (js "json") payload = None) ->
  clean_response
    (Some (opening_fence tagged broken ++ payload ++ closing_fence closing))
  = trim payload
  /\ (payload <> [] -> clean_response (Some payload) = trim payload).
Proof.
  intros Hp Htag. split.
  - unfold clean_response, text_or_empty_object.
    replace (truthy (opening_fence tagged broken ++ payload
                     ++ closing_fence closing)) with true
      by (destruct tagged, broken; reflexivity).
    pose proof (replace_fences_any_closing closing payload Hp) as Hclose.
    destruct tagged, broken.
    + (* ```json, line break *)
      exact Hclose.
    + (* ```json *)
      destruct payload as [|c t].
      * destruct closing; reflexivity.
      * assert (Hc : c <> backtick)
          by (intros ->; apply Hp; left; reflexivity).
        destruct (N.eqb_spec c newline) as [->|Hn].
        -- transitivity (trim (replace_fences (t ++ closing_fence closing))).
           ++ reflexivity.
           ++ rewrite replace_fences_any_closing
                by (intros H; apply Hp; right; exact H).
              symmetry. apply trim_cons_newline.
        -- rewrite <- Hclose. f_equal.
           unfold replace_fences, opening_fence.
           change ((fence ++ js "json" ++ []) ++ (c :: t)
                   ++ closing_fence closing)
             with (backtick :: backtick :: backtick
                   :: js "json" ++ c :: (t ++ closing_fence closing)).
           rewrite replace_fences_from_cons.
           change (backtick :: backtick :: backtick
                   :: js "json" ++ c :: (t ++ closing_fence closing))
             with (fence_json ++ c :: (t ++ closing_fence closing)) at 1.
           rewrite (fence_match_length_tagged c _ Hn). reflexivity.
    + (* ```, line break *)
      destruct payload as [|c t].
      * destruct closing; reflexivity.
      * assert (Hc : c <> backtick)
          by (intros ->; apply Hp; left; reflexivity).
        rewrite <- Hclose, <- (trim_cons_newline
                                 (replace_fences ((c :: t)
                                                  ++ closing_fence closing))).
        f_equal. unfold replace_fences, opening_fence.
        change ((fence ++ [] ++ [newline]) ++ (c :: t) ++ closing_fence closing)
          with (backtick :: backtick :: backtick :: newline
                :: c :: (t ++ closing_fence closing)).
        change (replace_fences_from 0
                  (backtick :: backtick :: backtick :: newline
                   :: c :: (t ++ closing_fence closing)))
          with (replace_fences_from 0
                  (newline :: c :: (t ++ closing_fence closing))).
        rewrite replace_fences_from_cons.
        rewrite fence_match_length_plain by discriminate.
        unfold newline_fence at 1. rewrite drop_prefix_cons. simpl N.eqb.
        cbv iota. unfold fence at 1.
        rewrite (drop_prefix_other _ _ backtick c) by congruence.
        reflexivity.
    + (* ``` *)
      specialize (Htag eq_refl eq_refl).
      rewrite <- Hclose. f_equal. unfold replace_fences, opening_fence.
      change ((fence ++ [] ++ []) ++ payload ++ closing_fence closing)
        with (backtick :: backtick :: backtick
              :: (payload ++ closing_fence closing)).
      rewrite replace_fences_from_cons.
      assert (Hlen : fence_match_length
                       (backtick :: backtick :: backtick
                        :: (payload ++ closing_fence closing)) = 3%nat).
      { unfold fence_match_length.
        change (drop_prefix fence_json
                  (backtick :: backtick :: backtick
                   :: (payload ++ closing_fence closing)))
          with (drop_prefix (js "json") (payload ++ closing_fence closing)).
        assert (Hnone : drop_prefix (js "json")
                          (payload ++ closing_fence closing) = None).
        { destruct closing; unfold closing_fence.
          - apply (drop_prefix_None_app (js "json") payload newline fence);
              [|exact Htag].
            cbv; intuition discriminate.
          - apply (drop_prefix_None_app (js "json") payload backtick
                     [backtick; backtick]); [|exact Htag].
            cbv; intuition discriminate. }
        rewrite Hnone. reflexivity. }
      rewrite Hlen. reflexivity.
  - intros Hne. unfold clean_response, text_or_empty_object.
    destruct payload as [|c t]; [contradiction|]. simpl truthy. cbv iota.
    rewrite (replace_fences_no_backtick _ Hp). reflexivity.
Qed.

(** X16. The bridging call never fails: whatever the service does,
    [generateBridgeResponse] resolves, issues exactly its one request and
    leaves the component state alone; its text is the response text
    trimmed, or the target context when the request is rejected or the
    response carries no text. *)
Theorem bridge_response_always_resolves
    (userInput targetContext : jsstring)
    (generated : Outcome GenerateContentResponse) (w : World) :
  exists bridgeText,
    generateBridgeResponse userInput targetContext generated w
    = (Resolves bridgeText,
       (fst w,
        snd w ++ [Request (ModelsGenerateContent
                             (bridgePrompt targetContext userInput))]))
    /\ ((exists response t,
           generated = Resolves response
           /\ resp_text response = Some t /\ bridgeText = trim t)
        \/ ((rejected generated
             \/ exists response,
                  generated = Resolves response /\ resp_text response = None)
            /\ bridgeText = targetContext)).
Proof.
  unfold_act. simpl. destruct generated as [response|e]; simpl.
  - destruct (resp_text response) as [t|] eqn:E; simpl; eexists;
      (split; [reflexivity|]).
    + left. exists response, t. repeat split; assumption || reflexivity.
    + right. split; [|reflexivity]. right. exists response. split;
        [reflexivity | exact E].
  - eexists. split; [reflexivity|]. right. split; [|reflexivity].
    left. exact I.
Qed.

Section ServiceProperties.

Variable JSON_parse : jsstring -> option GameTurnData.

(** X17. [sendMessage] rejects exactly when there is no chat session or
    the service rejects the request; a response that does not parse never
    makes it reject.  It never touches the component state, and it issues
    its request exactly when a session exists. *)
Theorem sendMessage_rejects_only_without_answer
    (message : jsstring) (replied : Outcome GenerateContentResponse)
    (w : World) :
  let r := sendMessage JSON_parse message replied w in
  fst (snd r) = fst w
  /\ ((exists e, fst r = Rejects e)
      <-> chatSession (fst w) = None \/ rejected replied)
  /\ (chatSession (fst w) = None -> snd (snd r) = snd w)
  /\ (chatSession (fst w) <> None ->
      snd (snd r) = snd w ++ [Request (ChatSendMessage message)]).
Proof.
  cbv zeta. unfold_act. simpl.
  destruct (chatSession (fst w)) as [session|]; simpl.
  - destruct replied as [result|e]; simpl;
      (split; [reflexivity|]); (split; [split|split]).
    + intros [e H]; discriminate.
    + intros [H|[]]; discriminate.
    + discriminate.
    + intros _; reflexivity.
    + intros _. right; exact I.
    + intros _. exists e; reflexivity.
    + discriminate.
    + intros _; reflexivity.
  - split; [reflexivity|]. split; [split|split].
    + intros _. left; reflexivity.
    + intros _. eexists; reflexivity.
    + intros _; reflexivity.
    + congruence.
Qed.

Lemma sent_messages_app (c d : list Call) :
  sent_messages (c ++ d) = sent_messages c ++ sent_messages d.
Proof.
  induction c as [|x c IH]; simpl; [reflexivity|].
  destruct x; simpl; rewrite IH; reflexivity.
Qed.

Lemma turn_requests_next (n : Z) :
  1 <= n ->
  turn_requests (n + 1)
  = turn_requests n ++ [js "NEXT_TURN_" ++ number_to_string (n + 1)].
Proof.
  intros Hn. unfold turn_requests.
  replace (Z.to_nat (n + 1) - 1)%nat with (S (Z.to_nat n - 1)) by lia.
  rewrite seq_S, map_app. cbn [map].
  replace (Z.of_nat (2 + (Z.to_nat n - 1))) with (n + 1) by lia.
  reflexivity.
Qed.

(** One event leaves the turn index and sends nothing to the chat
    session, or raises the index by one and sends the message of that
    turn. *)
Lemma dispatch_turn_request (e : Event) (a : App) :
  session_inv a ->
  chatSession (fst (dispatch JSON_parse e (a, []))) = chatSession a
  /\ ((currentTurn (gameState (fst (dispatch JSON_parse e (a, []))))
       = currentTurn (gameState a)
       /\ sent_messages (requests_of JSON_parse e a) = [])
      \/ (currentTurn (gameState (fst (dispatch JSON_parse e (a, []))))
          = currentTurn (gameState a) + 1
          /\ sent_messages (requests_of JSON_parse e a)
             = [js "NEXT_TURN_"
                ++ number_to_string (currentTurn (gameState a) + 1)])).
Proof.
  intros [_ Hsess].
  unfold requests_of, dispatch, settle, handler; destruct e; unfold_act; simpl;
    split_guards; (split; [reflexivity|]);
    try (left; split; reflexivity);
    try (right; split; reflexivity).
  all: exfalso;
    first [ destruct (Hsess ltac:(discriminate)) as [_ Hs]
          | destruct (Hsess ltac:(rewrite Hactive; discriminate)) as [_ Hs] ];
    congruence.
Qed.

(** X20. The turns are requested in order, once each: in every session
    the messages sent to the chat session are the start message followed
    by the next-turn messages of the turns 2, 3, ... up to the current
    turn index, with no gap and no repeat (and none at all when the
    session could not be created). *)
Theorem turns_are_requested_in_order (m : Mount) (events : list Event) :
  let w := run JSON_parse m events in
  sent_messages (requests (snd w))
  = match chatSession (fst w) with
    | Some _ => [js "START_GAME_MIZZOU_EDITION"]
    | None => []
    end
    ++ turn_requests (currentTurn (gameState (fst w))).
Proof.
  cbv zeta. induction events as [|e events IH] using rev_ind.
  - destruct m as [created replied stamp].
    unfold run, mounted, settle; unfold_act; simpl.
    destruct created, replied; reflexivity.
  - destruct (run_step JSON_parse m events e) as (Hfst & _ & _ & Hreq).
    rewrite Hreq, Hfst, sent_messages_app, IH.
    pose proof (proj1 (world_inv_final _ (proj1 (run_inv JSON_parse m events))))
      as Hinv.
    destruct (dispatch_turn_request e _ Hinv) as [Hs [[Ht Hr] | [Ht Hr]]];
      rewrite Hs, Ht, Hr.
    + rewrite app_nil_r. reflexivity.
    + rewrite turn_requests_next by (destruct Hinv as [[H _] _]; exact H).
      rewrite app_assoc. reflexivity.
Qed.

End ServiceProperties.

(* ================================================================== *)
(** * The further properties on concrete sessions *)
(* ================================================================== *)

Import Walkthrough.

(** The whole game, played through the screen, ends finished at turn
    ten with twenty-one requests: the session, the start message, ten
    bridges and nine next turns. *)
Example full_game_walk :
  let w := run parse good_mount full_game in
  status (gameState (final w)) = status_finished
  /\ currentTurn (gameState (final w)) = 10
  /\ List.length (requests (snd w)) = 21%nat
  /\ List.length (messages (final w)) = 30%nat.
Proof. vm_compute. repeat split; reflexivity. Qed.

Lemma history_is_append_only_witness :
  (1 <= 3)%nat
  /\ exists a b,
       nth_error (shown_states (snd (run parse good_mount next_turn_won))) 1
       = Some a
       /\ nth_error (shown_states (snd (run parse good_mount next_turn_won))) 3
          = Some b
       /\ exists more, messages b = messages a ++ more.
Proof.
  split; [lia|].
  destruct (nth_error (shown_states (snd (run parse good_mount next_turn_won))) 1)
    as [a|] eqn:Ea; [|vm_compute in Ea; discriminate].
  destruct (nth_error (shown_states (snd (run parse good_mount next_turn_won))) 3)
    as [b|] eqn:Eb; [|vm_compute in Eb; discriminate].
  exists a, b. split; [reflexivity | split; [reflexivity|]].
  apply (history_is_append_only parse good_mount next_turn_won 1 3 a b);
    [lia | exact Ea | exact Eb].
Defined.

Lemma idle_state_is_settled_witness :
  reachable parse at_grammar /\ isProcessing at_grammar = false.
Proof.
  split; [exact at_grammar_reachable|].
  exact (proj1 (idle_state_is_settled parse at_grammar at_grammar_reachable)).
Defined.

Lemma while_loading_suspended :
  In while_loading (suspended_states (snd (run parse good_mount to_grammar))).
Proof. vm_compute. left. reflexivity. Defined.

Lemma suspended_screen_offers_no_input_witness :
  In while_loading (suspended_states (snd (run parse good_mount to_grammar)))
  /\ input_locked (render_GameInterface while_loading).
Proof.
  split; [exact while_loading_suspended|].
  exact (proj1 (suspended_screen_offers_no_input parse good_mount to_grammar
                  while_loading (TypeEnglish []) while_loading_suspended)).
Defined.

Lemma finished_game_is_terminal_witness :
  status (gameState (final (run parse good_mount full_game))) = status_finished
  /\ requests (snd (run parse good_mount (full_game ++ next_turn_won)))
     = requests (snd (run parse good_mount full_game)).
Proof.
  assert (H : status (gameState (final (run parse good_mount full_game)))
              = status_finished) by (vm_compute; reflexivity).
  split; [exact H|].
  exact (proj2 (proj2 (proj2 (proj2
           (finished_game_is_terminal parse good_mount full_game
              next_turn_won H))))).
Defined.

Lemma broken_turn_misses_answer :
  ~ In (correctAnswer broken_turn) (options broken_turn).
Proof. vm_compute. intuition discriminate. Defined.

Lemma broken_clicks_offered :
  Forall (fun e => exists o replied userStamp modelStamp,
                     e = SelectOption o replied userStamp modelStamp
                     /\ In o (options broken_turn)) broken_clicks.
Proof.
  repeat constructor.
  - exists (js "Se grita"), (answers "{library}"), (stamp 7), (stamp 8).
    split; [reflexivity | left; reflexivity].
  - exists (js "Gritan"), (answers "{library}"), (stamp 9), (stamp 10).
    split; [reflexivity | right; left; reflexivity].
Defined.

Lemma at_broken_accepting : accepting at_broken broken_turn.
Proof. split; reflexivity. Defined.

Lemma missing_answer_blocks_the_turn_witness :
  ~ In (correctAnswer broken_turn) (options broken_turn)
  /\ accepting at_broken broken_turn
  /\ gameState
       (fst (fold_left (fun w e => dispatch parse e w) broken_clicks
               (at_broken, [])))
     = gameState at_broken.
Proof.
  split; [exact broken_turn_misses_answer|].
  split; [exact at_broken_accepting|].
  exact (proj1 (missing_answer_blocks_the_turn parse broken_turn broken_clicks
                  broken_turn_misses_answer broken_clicks_offered
                  at_broken [] at_broken_accepting)).
Defined.


Lemma at_grammar_shown :
  In at_grammar (shown_states (snd (run parse good_mount to_grammar))).
Proof.
  exact (proj2 (world_inv_final _ (proj1 (run_inv parse good_mount to_grammar)))).
Defined.

Lemma history_presents_active_challenge_witness :
  In at_grammar (shown_states (snd (run parse good_mount to_grammar)))
  /\ activeChallenge (gameState at_grammar) = Some bridged_turn
  /\ Z.of_nat (List.length (filter is_model (messages at_grammar)))
     = currentTurn (gameState at_grammar).
Proof.
  assert (H : activeChallenge (gameState at_grammar) = Some bridged_turn)
    by (vm_compute; reflexivity).
  split; [exact at_grammar_shown | split; [exact H|]].
  exact (proj2 (history_presents_active_challenge parse good_mount to_grammar
                  at_grammar bridged_turn at_grammar_shown H)).
Defined.

Lemma location_image_falls_back_to_outdoors_witness :
  ~ In (js "stadium") object_prototype_members
  /\ getLocationImage (js "stadium") = getLocationImage (js "outdoors").
Proof.
  assert (H : ~ In (js "stadium") object_prototype_members)
    by (vm_compute; intuition discriminate).
  split; [exact H|].
  destruct (location_image_falls_back_to_outdoors (js "stadium") H)
    as (url & _ & _ & _ & Hfall).
  apply Hfall. vm_compute. reflexivity.
Defined.

Lemma map_link_is_first_maps_uri_witness :
  primaryMapLink grounded_message = Some (js "https://maps.google.com/?cid=1")
  /\ js "https://maps.google.com/?cid=1" <> [].
Proof.
  assert (H : primaryMapLink grounded_message
              = Some (js "https://maps.google.com/?cid=1"))
    by (vm_compute; reflexivity).
  split; [exact H|].
  pose proof (map_link_is_first_maps_uri grounded_message) as Hlink.
  rewrite H in Hlink. exact (proj1 Hlink).
Defined.

Lemma first_entry_of_at_grammar :
  exists entry, nth_error (messages at_grammar) 0 = Some entry.
Proof. eexists. vm_compute. reflexivity. Defined.


Lemma at_grammar_offers_choice :
  offers (render_GameInterface at_grammar)
         (SelectOption (js "Se busca") unavailable (stamp 2) (stamp 3)).
Proof. vm_compute. right. left. reflexivity. Defined.

Lemma offered_input_is_accepted_witness :
  offers (render_GameInterface at_grammar)
         (SelectOption (js "Se busca") unavailable (stamp 2) (stamp 3))
  /\ exists entry more,
       messages
         (fst (dispatch parse
                 (SelectOption (js "Se busca") unavailable (stamp 2) (stamp 3))
                 (at_grammar, [])))
       = messages at_grammar ++ entry :: more
       /\ role entry = USER
       /\ text entry = Some (js "Se busca").
Proof.
  split; [exact at_grammar_offers_choice|].
  exact (offered_input_is_accepted parse at_grammar []
           (SelectOption (js "Se busca") unavailable (stamp 2) (stamp 3))
           at_grammar_offers_choice).
Defined.



Lemma next_turn_won_offered :
  offered_along parse (fst (mounted parse good_mount)) next_turn_won.
Proof. vm_compute. repeat split; auto 10. Defined.

Lemma screen_session_answers_every_turn_witness :
  offered_along parse (fst (mounted parse good_mount)) next_turn_won
  /\ activeChallenge (gameState (fst (run parse good_mount next_turn_won)))
     <> None
  /\ Z.of_nat
       (List.length
          (filter is_correct_choice
             (messages (fst (run parse good_mount next_turn_won)))))
     = currentTurn (gameState (fst (run parse good_mount next_turn_won))) - 1.
Proof.
  assert (H : activeChallenge
                (gameState (fst (run parse good_mount next_turn_won)))
              <> None) by (vm_compute; discriminate).
  split; [exact next_turn_won_offered | split; [exact H|]].
  exact (proj1 (screen_session_answers_every_turn parse good_mount
                  next_turn_won next_turn_won_offered H)).
Defined.

Lemma any_fence_cleans_to_payload_witness :
  ~ In backtick (js "{library}")
  /\ clean_response
       (Some (opening_fence false true ++ js "{library}" ++ closing_fence false))
     = trim (js "{library}").
Proof.
  assert (H : ~ In backtick (js "{library}"))
    by (vm_compute; intuition discriminate).
  split; [exact H|].
  refine (proj1 (any_fence_cleans_to_payload false true false (js "{library}")
                   H _)).
  intros _ E; discriminate E.
Defined.

Lemma sendMessage_rejects_only_without_answer_witness :
  chatSession (fst (initial_app, @nil Obs)) = None
  /\ snd (snd (sendMessage parse (js "START_GAME_MIZZOU_EDITION")
                 (answers "{library}") (initial_app, [])))
     = [].
Proof.
  assert (H : chatSession (fst (initial_app, @nil Obs)) = None)
    by reflexivity.
  split; [exact H|].
  exact (proj1 (proj2 (proj2
           (sendMessage_rejects_only_without_answer parse
              (js "START_GAME_MIZZOU_EDITION") (answers "{library}")
              (initial_app, []))) ) H).
Defined.

Lemma inherited_name_is_not_a_picture_witness :
  In (js "constructor") object_prototype_members
  /\ getLocationImage (js "constructor") = Inherited (js "constructor").
Proof.
  assert (H : In (js "constructor") object_prototype_members)
    by (left; reflexivity).
  split; [exact H|].
  exact (inherited_name_is_not_a_picture (js "constructor") H).
Defined.

Lemma screen_session_feedback_is_current_witness :
  offered_along parse (fst (mounted parse good_mount))
    (to_grammar ++ [SelectOption (js "Se busca") unavailable (stamp 2) (stamp 3)])
  /\ exists fb,
       feedbackMessage
         (fst (run parse good_mount
                 (to_grammar
                  ++ [SelectOption (js "Se busca") unavailable (stamp 2)
                        (stamp 3)])))
       = Some fb
       /\ turnStep
            (gameState
               (fst (run parse good_mount
                       (to_grammar
                        ++ [SelectOption (js "Se busca") unavailable (stamp 2)
                              (stamp 3)]))))
          = grammar.
Proof.
  assert (H : offered_along parse (fst (mounted parse good_mount))
                (to_grammar
                 ++ [SelectOption (js "Se busca") unavailable (stamp 2)
                       (stamp 3)]))
    by (vm_compute; repeat split; auto 10).
  split; [exact H|].
  destruct (feedbackMessage
              (fst (run parse good_mount
                      (to_grammar
                       ++ [SelectOption (js "Se busca") unavailable (stamp 2)
                             (stamp 3)])))) as [fb|] eqn:E;
    [|vm_compute in E; discriminate].
  exists fb. split; [reflexivity|].
  exact (proj1 (screen_session_feedback_is_current parse good_mount _ H fb E)).
Defined.
